(** * Karnaugh-map solver: grouping, formatting and grid layout

    A shallow embedding of [app.py]: the helpers that turn a minimised
    Boolean expression into implicant groups ([get_minterms_for_term],
    [get_implicant_groups]), derive the algebraic term of a group
    ([group_to_term]), render the solution ([format_sympy_expr]), lay the
    truth table out on the Gray-coded grid ([generate_kmap]) and the
    request handler that wires them together ([solve_kmap]).

    Python integers produced by [range] are modelled as [nat], the integers
    of a request (which [int] may parse as negative) as [Z], [str] values as
    [string], the characters of a binary rendering as [list ascii], [dict]
    as [gmap].  The minimiser ([boolalg.SOPform], [boolalg.POSform]) is an
    external library: it is a parameter of the handler. *)

From Stdlib Require Import Ascii ZArith Lia.
From stdpp Require Import base list gmap strings pretty sorting.

Set Warnings "-register-all".

Local Open Scope string_scope.
Local Open Scope list_scope.
Local Open Scope nat_scope.

(** ** Python primitives *)

Module Py.

(** The character of one binary digit. *)
Definition digit (b : bool) : ascii := if b then "1"%char else "0"%char.

(** Binary digits of [m], least significant first; the recursion stops at
    the most significant set bit ([0] has the single digit 0). *)
Fixpoint lsb_digits (fuel m : nat) : list ascii :=
  match fuel with
  | 0 => []
  | S fuel' =>
      digit (Nat.odd m) ::
      match Nat.div2 m with
      | 0 => []
      | S _ as q => lsb_digits fuel' q
      end
  end.

(** [format(m, 'b')]: the digits, most significant first. *)
Definition bin_digits (m : nat) : list ascii := rev (lsb_digits (S m) m).

(** [format(m, f'0{width}b')]: zero-padded on the left to [width]
    characters, longer when [m] needs more digits. *)
Definition format_bin (width m : nat) : list ascii :=
  let d := bin_digits m in
  replicate (width - length d) "0"%char ++ d.

(** [int(ch)] for a character of a binary rendering. *)
Definition int_of_char (ch : ascii) : nat :=
  if Ascii.eqb ch "1" then 1 else 0.

(** [int(s, 2)] on a non-empty string of binary digits. *)
Definition int_base2 (s : list ascii) : nat :=
  foldl (λ acc ch, 2 * acc + int_of_char ch) 0 s.

(** [s[i]]; every use below indexes a [format_bin width _] at a position
    below [width], which is in range (see [format_bin_length]). *)
Definition char_at (s : list ascii) (i : nat) : ascii := nth i s "0"%char.

(** [sep.join(parts)]. *)
Definition join (sep : string) (parts : list string) : string :=
  String.concat sep parts.

(** [s.replace(old, new)]: leftmost, non-overlapping occurrences.  [skip]
    counts the characters of a matched occurrence still to be dropped. *)
Fixpoint replace_from (old new : string) (skip : nat) (s : string) : string :=
  match s with
  | EmptyString => EmptyString
  | String c s' =>
      match skip with
      | S k => replace_from old new k s'
      | 0 =>
          if String.prefix old s
          then new +:+ replace_from old new (String.length old - 1) s'
          else String c (replace_from old new 0 s')
      end
  end.

(** With an empty [old], Python inserts [new] around every character. *)
Fixpoint intersperse_all (new s : string) : string :=
  match s with
  | EmptyString => new
  | String c s' => new +:+ String c (intersperse_all new s')
  end.

Definition replace (old new s : string) : string :=
  match old with
  | EmptyString => intersperse_all new s
  | _ => replace_from old new 0 s
  end.

(** [sorted(names, key=len, reverse=True)]: stable, longest first. *)
Fixpoint insert_by_len (x : string) (l : list string) : list string :=
  match l with
  | [] => [x]
  | y :: l' =>
      if Nat.ltb (String.length y) (String.length x)
      then x :: l
      else y :: insert_by_len x l'
  end.

Definition sorted_by_len_desc (names : list string) : list string :=
  foldl (λ acc x, insert_by_len x acc) [] names.

(** [sorted(l)] on integers. *)
Definition sorted (l : list nat) : list nat := merge_sort Nat.le l.

(** [str(l)] for a list of integers: ["[1, 3]"]. *)
Definition str_list (l : list nat) : string :=
  "[" +:+ join ", " (map pretty l) +:+ "]".

(** [range(n)]. *)
Definition range (n : nat) : list nat := seq 0 n.

End Py.

(** ** SymPy expressions *)

(** The Boolean expressions the minimiser returns.  [BooleanTrue] and
    [BooleanFalse] are SymPy's singletons [true] and [false]; they are not
    the Python objects [True] and [False]. *)
Inductive expr : Type :=
  | Symbol (name : string)
  | BooleanTrue
  | BooleanFalse
  | Not (arg : expr)
  | And (args : list expr)
  | Or (args : list expr).

(** A value that may be a Python [bool] or a SymPy expression: what the
    dynamically typed helpers can be handed. *)
Inductive pyobject : Type :=
  | PyBool (b : bool)
  | Sympy (e : expr).

Definition paren (s : string) : string := "(" +:+ s +:+ ")".

(** [str(e)] as SymPy's string printer renders it: [~] binds tightest, an
    [And] or [Or] nested under another connective is parenthesised. *)
Fixpoint sstr (e : expr) : string :=
  match e with
  | Symbol name => name
  | BooleanTrue => "True"
  | BooleanFalse => "False"
  | Not a =>
      "~" +:+ match a with
              | And _ | Or _ => paren (sstr a)
              | _ => sstr a
              end
  | And args =>
      Py.join " & "
        (map (λ a, match a with And _ | Or _ => paren (sstr a) | _ => sstr a end) args)
  | Or args =>
      Py.join " | "
        (map (λ a, match a with And _ | Or _ => paren (sstr a) | _ => sstr a end) args)
  end.

Definition str_pyobject (o : pyobject) : string :=
  match o with
  | PyBool true => "True"
  | PyBool false => "False"
  | Sympy e => sstr e
  end.

(** [symbols(','.join(var_names))], made a tuple when a single symbol comes
    back: one [Symbol] per name, for names that are plain identifiers. *)
Definition symbols (var_names : list string) : list expr := map Symbol var_names.

(** ** [get_minterms_for_term] *)

(** [term.args if isinstance(term, (And, Or)) else (term,)]. *)
Definition term_args (term : expr) : list expr :=
  match term with
  | And args | Or args => args
  | _ => [term]
  end.

(** The first loop: [fixed_vars], the bit each named variable must have. *)
Definition fix_var (fixed_vars : gmap string nat) (arg : expr) : gmap string nat :=
  match arg with
  | Not a => <[sstr a := 0]> fixed_vars
  | _ => <[sstr arg := 1]> fixed_vars
  end.

Definition fixed_vars_of (term : expr) : gmap string nat :=
  foldl fix_var ∅ (term_args term).

(** The inner loop over [enumerate(variables)], leaving at the first
    mismatch; [var_index] is the position of the head of [variables]. *)
Fixpoint is_covered (fixed_vars : gmap string nat) (bin_str : list ascii)
    (var_index : nat) (variables : list expr) : bool :=
  match variables with
  | [] => true
  | var_symbol :: rest =>
      let var_name := sstr var_symbol in
      match fixed_vars !! var_name with
      | Some want =>
          if negb (Nat.eqb (Py.int_of_char (Py.char_at bin_str var_index)) want)
          then false
          else is_covered fixed_vars bin_str (S var_index) rest
      | None => is_covered fixed_vars bin_str (S var_index) rest
      end
  end.

Definition get_minterms_for_term (term : expr) (variables : list expr) : list nat :=
  let num_vars := length variables in
  let fixed_vars := fixed_vars_of term in
  foldl
    (λ covered_minterms i,
       let bin_str := Py.format_bin num_vars i in
       if is_covered fixed_vars bin_str 0 variables
       then covered_minterms ++ [i]
       else covered_minterms)
    [] (Py.range (2 ^ num_vars)).

(** ** [get_implicant_groups] *)

(** [x in [True, False]]: membership compares with [==], and SymPy's
    [true] and [false] are equal to the Python constants. *)
Definition in_True_False (x : pyobject) : bool :=
  match x with
  | PyBool _ => true
  | Sympy BooleanTrue | Sympy BooleanFalse => true
  | Sympy _ => false
  end.

Definition get_implicant_groups (minimized_expr : pyobject) (variables : list expr)
    : list (list nat) :=
  if in_True_False minimized_expr then []
  else
    match minimized_expr with
    | PyBool _ => []
    | Sympy e =>
        let terms := match e with Or args => args | _ => [e] end in
        map (λ term, get_minterms_for_term term variables) terms
    end.

(** ** [group_to_term] *)

(** [str(variables[i])]; the position is always below [len(variables)]. *)
Definition var_str (variables : list expr) (i : nat) : string :=
  match variables !! i with
  | Some v => sstr v
  | None => ""
  end.

(** The body of the loop over the bit positions: the name appended to
    [term_parts] at position [i], if the bit is constant across the group. *)
Definition term_part (bin_strings : list (list ascii)) (variables : list expr)
    (form_type : string) (i : nat) : option string :=
  let first_bit := Py.char_at (hd [] bin_strings) i in
  if forallb (λ b, Ascii.eqb (Py.char_at b i) first_bit) bin_strings then
    let var_name := var_str variables i +:+ "'" in
    let var_name :=
      if (String.eqb form_type "SOP" && Ascii.eqb first_bit "1")
         || (String.eqb form_type "POS" && Ascii.eqb first_bit "0")
      then var_str variables i
      else var_name in
    Some var_name
  else None.

Definition term_parts (group_minterms : list nat) (variables : list expr)
    (form_type : string) : list string :=
  let num_vars := length variables in
  let bin_strings := map (Py.format_bin num_vars) group_minterms in
  foldl
    (λ parts i,
       match term_part bin_strings variables form_type i with
       | Some var_name => parts ++ [var_name]
       | None => parts
       end)
    [] (Py.range num_vars).

Definition group_to_term (group_minterms : list nat) (variables : list expr)
    (form_type : string) : string :=
  match group_minterms with
  | [] => ""
  | _ =>
      match term_parts group_minterms variables form_type with
      | [] => "1"
      | parts =>
          if String.eqb form_type "SOP"
          then Py.join "" parts
          else "(" +:+ Py.join " + " parts +:+ ")"
      end
  end.

(** ** [format_sympy_expr] *)

(** [expr_obj is True] and [expr_obj is False] are identity tests against
    the Python constants; the pattern of the final [re.sub] is the literal
    text [") & ("], so the substitution is a plain replacement. *)
Definition format_sympy_expr (expr_obj : pyobject) (var_names : list string)
    (form_type : string) : string :=
  match expr_obj with
  | PyBool true => "1"
  | PyBool false => "0"
  | _ =>
      let expr_str :=
        foldl (λ expr_str var, Py.replace ("~" +:+ var) (var +:+ "'") expr_str)
          (str_pyobject expr_obj) (Py.sorted_by_len_desc var_names) in
      if String.eqb form_type "SOP"
      then Py.replace " | " " + " (Py.replace " & " "" expr_str)
      else Py.replace ") & (" ") ("
             (Py.replace " & " "" (Py.replace " | " " + " expr_str))
  end.

(** ** [generate_kmap] *)

Module Kmap.
(** The dictionary [generate_kmap] returns. *)
Record t := {
  map : list (list string);
  row_labels : list string;
  col_labels : list string;
  row_vars : string;
  col_vars : string;
  output_name : string;
}.
End Kmap.

Definition gray_map : gmap nat nat := {[ 0 := 0; 1 := 1; 2 := 3; 3 := 2 ]}.

(** [gray_map.get(v, v)]. *)
Definition gray_get (v : nat) : nat := default v (gray_map !! v).

(** [{m: "1" for m in minterms}], then [update({d: "X" for d in dontcares})]:
    the entries of the second dictionary replace those of the first. *)
Definition dict_of (keys : list Z) (val : string) : gmap Z string :=
  foldl (λ d k, <[k := val]> d) ∅ keys.

Definition all_terms_of (minterms dontcares : list Z) : gmap Z string :=
  dict_of dontcares "X" ∪ dict_of minterms "1".

(** The grid position the loop computes for index [i]. *)
Definition cell_of (variables : list string) (i : nat) : nat * nat :=
  let num_vars := length variables in
  let row_vars := take (num_vars / 2) variables in
  let col_vars := drop (num_vars / 2) variables in
  let bin_str := Py.format_bin num_vars i in
  let r_bin :=
    match row_vars with
    | [] => 0
    | _ => Py.int_base2 (take (length row_vars) bin_str)
    end in
  let c_bin :=
    match col_vars with
    | [] => 0
    | _ => Py.int_base2 (drop (length row_vars) bin_str)
    end in
  (gray_get r_bin, gray_get c_bin).

(** [kmap[r][c] = val].  Python raises when [r] or [c] is out of range; the
    positions of [cell_of] are in range for 2 to 4 variables (see
    [cell_of_in_grid]), and out of range this model leaves the grid as is. *)
Definition set_cell (kmap : list (list string)) (r c : nat) (val : string)
    : list (list string) :=
  match kmap !! r with
  | Some row => <[r := <[c := val]> row]> kmap
  | None => kmap
  end.

Definition grid_dims (num_vars : nat) : nat * nat :=
  if num_vars =? 4 then (4, 4) else if num_vars =? 3 then (2, 4) else (2, 2).

Definition axis_labels (vars : list string) : list string :=
  if length vars =? 1 then ["0"; "1"] else ["00"; "01"; "11"; "10"].

Definition fill_kmap (variables : list string) (all_terms : gmap Z string)
    (kmap : list (list string)) : list (list string) :=
  foldl
    (λ kmap i,
       let val := default "0" (all_terms !! Z.of_nat i) in
       let '(r, c) := cell_of variables i in
       set_cell kmap r c val)
    kmap (Py.range (2 ^ length variables)).

Definition generate_kmap (variables : list string) (minterms dontcares : list Z)
    (output_name : string) : option Kmap.t :=
  let num_vars := length variables in
  if negb (bool_decide (num_vars ∈ [2; 3; 4])) then None
  else
    let '(rows, cols) := grid_dims num_vars in
    let row_vars := take (num_vars / 2) variables in
    let col_vars := drop (num_vars / 2) variables in
    let kmap := replicate rows (replicate cols "0") in
    let all_terms := all_terms_of minterms dontcares in
    Some {| Kmap.map := fill_kmap variables all_terms kmap;
            Kmap.row_labels := axis_labels row_vars;
            Kmap.col_labels := axis_labels col_vars;
            Kmap.row_vars := Py.join "," row_vars;
            Kmap.col_vars := Py.join "," col_vars;
            Kmap.output_name := output_name |}.

(** [kmap[r][c]] of a finished grid. *)
Definition grid_cell (kmap : list (list string)) (pos : nat * nat) : option string :=
  row ← kmap !! pos.1; row !! pos.2.

(** ** [solve_kmap] *)

(** An exception raised inside the handler, as the text [str(e)]. *)
Definition exn : Type := string.

(** The external minimiser.  Both functions return a SymPy expression or
    raise. *)
Record minimizer := {
  SOPform : list expr → list Z → list Z → exn + expr;
  POSform : list expr → list Z → list Z → exn + expr;
}.

Module Request.
(** The fields of the request after the handler has split the variable
    names and parsed the number tokens. *)
Record t := {
  var_names : list string;
  output_name : string;
  minterms : list Z;
  dontcares : list Z;
  form_type : string;
}.
End Request.

Module Response.
(** [kmap_data] once the handler has added its three keys. *)
Record kmap_data := {
  kmap : Kmap.t;
  groups : list (list nat);
  explanations : list string;
  form_type : string;
}.

(** The JSON body and the HTTP status the handler returns. *)
Inductive t :=
  | Solution (solution : string) (kmap : kmap_data)
  | Error (message : string) (status : nat).
End Response.

Definition raise {A} (e : exn) : exn + A := inl e.

(** Sequencing inside the [try] block: the first exception raised ends it. *)
#[local] Instance exn_bind : MBind (sum exn) :=
  λ A B f m, match m with inl e => inl e | inr a => f a end.

(** [kmap_data.update(...)] raises when [generate_kmap] returned [None]. *)
Definition update_kmap_data (kmap_data : option Kmap.t) (groups : list (list nat))
    (explanations : list string) (form_type : string) : exn + Response.kmap_data :=
  match kmap_data with
  | None => raise "'NoneType' object has no attribute 'update'"
  | Some k =>
      inr {| Response.kmap := k; Response.groups := groups;
             Response.explanations := explanations;
             Response.form_type := form_type |}
  end.

(** [list(set(range(2**n)) - set(minterms) - set(dontcares))]. *)
Definition maxterms_of (num_vars : nat) (minterms dontcares : list Z) : list Z :=
  map Z.of_nat
    (filter (λ i, (Z.of_nat i ∉ minterms) ∧ (Z.of_nat i ∉ dontcares))
       (Py.range (2 ^ num_vars))).

Definition explanation_text (term_name : string) (relevant_terms : list nat)
    (algebraic_term : string) : string :=
  "A group is formed around the " +:+ term_name +:+ " at positions "
  +:+ "<strong>" +:+ Py.str_list relevant_terms
  +:+ "</strong>. This simplifies to the term "
  +:+ "<code>" +:+ algebraic_term +:+ "</code>.".

(** [sorted([m for m in group if m in terms_to_group])]. *)
Definition relevant_terms_of (terms_to_group : list Z) (group : list nat) : list nat :=
  Py.sorted (filter (λ m, Z.of_nat m ∈ terms_to_group) group).

(** The loop that generates the explanations. *)
Definition explain_groups (groups : list (list nat)) (terms_to_group : list Z)
    (term_name_in_explanation : string) (variables : list expr)
    (form_type : string) : list string :=
  foldl
    (λ explanations group,
       match relevant_terms_of terms_to_group group with
       | [] => explanations
       | relevant_terms =>
           let algebraic_term := group_to_term group variables form_type in
           explanations ++
             [explanation_text term_name_in_explanation relevant_terms algebraic_term]
       end)
    [] groups.

(** The body of the [try] block, from the parsed request on. *)
Definition solve_body (mz : minimizer) (req : Request.t) : exn + Response.t :=
  let var_names := Request.var_names req in
  let output_name := Request.output_name req in
  let minterms := Request.minterms req in
  let dontcares := Request.dontcares req in
  let form_type := Request.form_type req in
  if bool_decide (var_names = [])
     || (bool_decide (minterms = []) && bool_decide (dontcares = []))
  then
    let kmap_data :=
      generate_kmap (match var_names with [] => ["a"; "b"; "c"; "d"] | _ => var_names end)
        [] [] output_name in
    kmap_data ← update_kmap_data kmap_data [] [] form_type;
    inr (Response.Solution "0" kmap_data)
  else if negb (bool_decide (length var_names ∈ [2; 3; 4])) then
    inr (Response.Error
           (pretty (length var_names) +:+ " variables not supported (2-4 only).") 400)
  else
    let variables := symbols var_names in
    '(minimized_expr, groups, terms_to_group, term_name_in_explanation) ←
      (if String.eqb form_type "SOP" then
         minimized_expr ← SOPform mz variables minterms dontcares;
         let groups := get_implicant_groups (Sympy minimized_expr) variables in
         inr (minimized_expr, groups, minterms, "1s")
       else
         minimized_expr ← POSform mz variables minterms dontcares;
         let maxterms := maxterms_of (length variables) minterms dontcares in
         sop_of_zeros_expr ← SOPform mz variables maxterms dontcares;
         let groups := get_implicant_groups (Sympy sop_of_zeros_expr) variables in
         inr (minimized_expr, groups, maxterms, "0s"));
    let explanations :=
      explain_groups groups terms_to_group term_name_in_explanation variables form_type in
    let solution_str := format_sympy_expr (Sympy minimized_expr) var_names form_type in
    let kmap_data := generate_kmap var_names minterms dontcares output_name in
    kmap_data ← update_kmap_data kmap_data groups explanations form_type;
    inr (Response.Solution solution_str kmap_data).

(** [except Exception as e]: any exception becomes a 500 response. *)
Definition solve_kmap (mz : minimizer) (req : Request.t) : Response.t :=
  match solve_body mz req with
  | inr response => response
  | inl e => Response.Error ("An unexpected server error occurred: " +:+ e) 500
  end.

(** ** Specification-side notions *)

(** The bit of index [i] that belongs to the variable at position [j] of
    [n]: the first variable is the most significant bit. *)
Definition bit_at (n i j : nat) : bool := Nat.testbit i (n - 1 - j).

(** The integer [fixed_vars] stores for a polarity. *)
Definition polarity_value (p : bool) : nat := if p then 1 else 0.

(** A literal: a variable name and its polarity ([false] is complemented). *)
Definition literal_of (e : expr) : option (string * bool) :=
  match e with
  | Symbol name => Some (name, true)
  | Not (Symbol name) => Some (name, false)
  | _ => None
  end.

(** The literals of a term of the minimiser's output: a single literal, or
    a conjunction or disjunction of literals. *)
Definition term_literals (term : expr) : option (list (string * bool)) :=
  mapM literal_of (term_args term).

(** No variable occurs with both polarities. *)
Definition consistent (lits : list (string * bool)) : Prop :=
  ∀ v p q, (v, p) ∈ lits → (v, q) ∈ lits → p = q.

(** Index [i] agrees with every literal at every position that carries
    the literal's variable. *)
Definition matches_literals (lits : list (string * bool)) (variables : list expr)
    (i : nat) : bool :=
  forallb
    (λ '(j, x),
       forallb
         (λ '(v, p),
            implb (String.eqb (sstr x) v)
                  (Bool.eqb (bit_at (length variables) i j) p))
         lits)
    (imap pair variables).

(** The two display modes. *)
Inductive mode := SOP | POS.

Definition mode_tag (m : mode) : string :=
  match m with SOP => "SOP" | POS => "POS" end.

(** The value shared by all members of [group] at position [j], if any. *)
Definition constant_bit (n : nat) (group : list nat) (j : nat) : option bool :=
  match group with
  | [] => None
  | m :: _ =>
      let b := bit_at n m j in
      if forallb (λ m', Bool.eqb (bit_at n m' j) b) group then Some b else None
  end.

(** The naming rule: SOP shows a constant 0 primed and a constant 1 plain,
    POS the other way round. *)
Definition literal_name (m : mode) (name : string) (b : bool) : string :=
  match m, b with
  | SOP, true | POS, false => name
  | SOP, false | POS, true => name +:+ "'"
  end.

(** The term of a group in the words of the specification. *)
Definition spec_term_parts (m : mode) (variables : list expr) (group : list nat)
    : list string :=
  omap
    (λ j, b ← constant_bit (length variables) group j;
          Some (literal_name m (var_str variables j) b))
    (seq 0 (length variables)).

Definition spec_group_term (m : mode) (variables : list expr) (group : list nat)
    : string :=
  match spec_term_parts m variables group with
  | [] => "1"
  | parts =>
      match m with
      | SOP => String.concat "" parts
      | POS => "(" +:+ String.concat " + " parts +:+ ")"
      end
  end.

(** The term [group_to_term] displays, as an expression: a name shown
    plain is the symbol, a name shown primed its negation; SOP terms are
    conjunctions and POS terms disjunctions. *)
Definition derived_literals (m : mode) (var_names : list string) (group : list nat)
    : list expr :=
  omap
    (λ j, b ← constant_bit (length var_names) group j;
          v ← var_names !! j;
          Some (match m, b with
                | SOP, true | POS, false => Symbol v
                | SOP, false | POS, true => Not (Symbol v)
                end))
    (seq 0 (length var_names)).

Definition term_of_literals (m : mode) (lits : list expr) : expr :=
  match lits with
  | [] => BooleanTrue
  | [l] => l
  | _ => match m with SOP => And lits | POS => Or lits end
  end.

Definition derived_term (m : mode) (var_names : list string) (group : list nat) : expr :=
  term_of_literals m (derived_literals m var_names group).

(** The literals of a derived term, as name and polarity pairs. *)
Definition derived_pairs (var_names : list string) (group : list nat)
    : list (string * bool) :=
  omap
    (λ j, b ← constant_bit (length var_names) group j;
          v ← var_names !! j;
          Some (v, b))
    (seq 0 (length var_names)).

(** The display of a derived term, in the notation of [group_to_term]. *)
Definition display_literal (e : expr) : string :=
  match e with
  | Not a => sstr a +:+ "'"
  | _ => sstr e
  end.

Definition display_term (m : mode) (t : expr) : string :=
  match t with
  | BooleanTrue => "1"
  | _ =>
      let parts := map display_literal (term_args t) in
      match m with
      | SOP => String.concat "" parts
      | POS => "(" +:+ String.concat " + " parts +:+ ")"
      end
  end.

(** Each literal of a term with its polarity flipped. *)
Definition complement_literal (e : expr) : expr :=
  match e with
  | Not a => a
  | _ => Not e
  end.

Definition complement_literals (t : expr) : expr :=
  match t with
  | And args => And (map complement_literal args)
  | Or args => Or (map complement_literal args)
  | _ => complement_literal t
  end.

(** Number of bit positions below [n] at which [i] and [j] differ. *)
Definition hamming_distance (n i j : nat) : nat :=
  length (filter (λ k, Nat.testbit i k ≠ Nat.testbit j k) (seq 0 n)).

(** Distance along an axis of [size] cells that wraps around at the edge. *)
Definition axis_distance (size a b : nat) : nat :=
  let d := if a <? b then b - a else a - b in
  d `min` (size - d).

(** Manhattan distance on the grid, with wraparound. *)
Definition grid_distance (dims p q : nat * nat) : nat :=
  axis_distance dims.1 p.1 q.1 + axis_distance dims.2 p.2 q.2.

(** A grid of the given dimensions. *)
Definition grid_shape (dims : nat * nat) (kmap : list (list string)) : Prop :=
  length kmap = dims.1 ∧ Forall (λ row, length row = dims.2) kmap.

(** The index-to-cell mapping, checked over the whole table. *)
Definition cells_in_grid (variables : list string) : bool :=
  let dims := grid_dims (length variables) in
  forallb (λ i, let p := cell_of variables i in (p.1 <? dims.1) && (p.2 <? dims.2))
    (seq 0 (2 ^ length variables)).

Definition cells_distinct (variables : list string) : bool :=
  let idx := seq 0 (2 ^ length variables) in
  forallb (λ i, forallb (λ j,
     implb (bool_decide (cell_of variables i = cell_of variables j)) (i =? j)) idx) idx.

Definition cells_onto (variables : list string) : bool :=
  let dims := grid_dims (length variables) in
  forallb (λ r, forallb (λ c,
     existsb (λ i, bool_decide (cell_of variables i = (r, c)))
       (seq 0 (2 ^ length variables))) (seq 0 dims.2)) (seq 0 dims.1).

Definition cells_adjacent (variables : list string) : bool :=
  let n := length variables in
  let idx := seq 0 (2 ^ n) in
  forallb (λ i, forallb (λ j,
     implb (hamming_distance n i j =? 1)
           (grid_distance (grid_dims n) (cell_of variables i) (cell_of variables j) =? 1))
     idx) idx.

(** The handler's [terms_to_group]: [minterms] under SOP, the list
    [maxterms] it computes otherwise. *)
Definition relevant_set (req : Request.t) : list Z :=
  if String.eqb (Request.form_type req) "SOP"
  then Request.minterms req
  else maxterms_of (length (Request.var_names req))
         (Request.minterms req) (Request.dontcares req).

Definition term_name_of (form_type : string) : string :=
  if String.eqb form_type "SOP" then "1s" else "0s".

(** What one pass of the explanation loop appends for a group, if
    anything. *)
Definition explanation_of (req : Request.t) (group : list nat) : option string :=
  let relevant := filter (λ m, Z.of_nat m ∈ relevant_set req) group in
  match relevant with
  | [] => None
  | _ =>
      Some (explanation_text (term_name_of (Request.form_type req))
              (Py.sorted relevant)
              (group_to_term group (symbols (Request.var_names req))
                 (Request.form_type req)))
  end.





(** A minimiser that always answers with the same expression, for
    concrete runs of the handler. *)
Definition constant_minimizer (e : expr) : minimizer :=
  {| SOPform := λ _ _ _, inr e; POSform := λ _ _ _, inr e |}.

(** ** Notions for further properties *)

(** The constraint a list of literals puts on a variable: the polarity of
    the first literal that names it, if any. *)
Definition constraint_of (lits : list (string * bool)) (x : expr) : option bool :=
  snd <$> (snd <$> list_find (λ l, l.1 = sstr x) lits).

(** Index [i] satisfies per-bit constraints given least significant bit
    first. *)
Fixpoint bits_ok (cs : list (option bool)) (i : nat) : bool :=
  match cs with
  | [] => true
  | c :: cs' =>
      match c with
      | Some b => Bool.eqb (Nat.odd i) b
      | None => true
      end && bits_ok cs' (Nat.div2 i)
  end.

(** The variables no literal names. *)
Definition free_variables (lits : list (string * bool)) (variables : list expr)
    : list expr :=
  filter (λ x, sstr x ∉ lits.*1) variables.

(** The truth assignment an index stands for: the value of a variable is
    the bit at its (first) position in the variable list. *)
Definition assignment (var_names : list string) (i : nat) (v : string) : bool :=
  match list_find (λ w, w = v) var_names with
  | Some (j, _) => bit_at (length var_names) i j
  | None => false
  end.

(** The truth value of an expression under an assignment. *)
Fixpoint eval (ρ : string → bool) (e : expr) : bool :=
  match e with
  | Symbol v => ρ v
  | BooleanTrue => true
  | BooleanFalse => false
  | Not a => negb (eval ρ a)
  | And args => forallb (eval ρ) args
  | Or args => existsb (eval ρ) args
  end.

(** The top-level terms of a sum: [e.args] for an [Or], [e] itself
    otherwise. *)
Definition sum_terms (e : expr) : list expr :=
  match e with
  | Or args => args
  | _ => [e]
  end.

(** A product term over the listed variables: a literal or a conjunction
    of literals, no variable in both polarities. *)
Definition product_term (var_names : list string) (t : expr) : Prop :=
  ∃ lits, term_literals t = Some lits
          ∧ (∀ args, t ≠ Or args)
          ∧ consistent lits
          ∧ ∀ v p, (v, p) ∈ lits → v ∈ var_names.

(** The value [generate_kmap] writes for index [i]. *)
Definition cell_value (minterms dontcares : list Z) (i : nat) : string :=
  if decide (Z.of_nat i ∈ dontcares) then "X"
  else if decide (Z.of_nat i ∈ minterms) then "1"
  else "0".

(** The labels of the row and the column of every index, put together,
    spell the index in binary; checked over the whole table. *)
Definition labels_spell_index (variables : list string) : bool :=
  let n := length variables in
  let row_labels := axis_labels (take (n / 2) variables) in
  let col_labels := axis_labels (drop (n / 2) variables) in
  forallb
    (λ i, let '(r, c) := cell_of variables i in
          match row_labels !! r, col_labels !! c with
          | Some rl, Some cl =>
              String.eqb (rl +:+ cl) (String.string_of_list_ascii (Py.format_bin n i))
          | _, _ => false
          end)
    (seq 0 (2 ^ n)).

(** The first exception the minimiser raises on a request that reaches it,
    if any: [SOPform] under SOP; otherwise [POSform], then [SOPform] on the
    maxterms. *)
Definition minimizer_failure (mz : minimizer) (req : Request.t) : option exn :=
  let variables := symbols (Request.var_names req) in
  let minterms := Request.minterms req in
  let dontcares := Request.dontcares req in
  if String.eqb (Request.form_type req) "SOP" then
    match SOPform mz variables minterms dontcares with
    | inl e => Some e
    | inr _ => None
    end
  else
    match POSform mz variables minterms dontcares with
    | inl e => Some e
    | inr _ =>
        match SOPform mz variables
                (maxterms_of (length variables) minterms dontcares) dontcares with
        | inl e => Some e
        | inr _ => None
        end
    end.


(** ** Reading the variable names of a request

    [var_names = [v.strip() for v in
                  data.get('variables', 'a,b,c,d').split(',') if v.strip()]].
    A character of a [string] is read as a code point below 256. *)

Module Parse.

(** The characters [str.strip] removes: the code points below 256 for
    which [str.isspace] holds. *)
Definition is_space (c : ascii) : bool :=
  let n := nat_of_ascii c in
  ((9 <=? n) && (n <=? 13)) || ((28 <=? n) && (n <=? 32))
  || (n =? 133) || (n =? 160).

Fixpoint lstrip (s : string) : string :=
  match s with
  | EmptyString => EmptyString
  | String c s' => if is_space c then lstrip s' else s
  end.

Fixpoint rstrip (s : string) : string :=
  match s with
  | EmptyString => EmptyString
  | String c s' =>
      match rstrip s' with
      | EmptyString => if is_space c then EmptyString else String c EmptyString
      | r => String c r
      end
  end.

(** [s.strip()]. *)
Definition strip (s : string) : string := rstrip (lstrip s).

(** [s.split(',')]: the pieces between the commas; an empty string has the
    single piece [""]. *)
Fixpoint split_comma (s : string) : list string :=
  match s with
  | EmptyString => [EmptyString]
  | String c s' =>
      if Ascii.eqb c ","
      then EmptyString :: split_comma s'
      else match split_comma s' with
           | piece :: pieces => String c piece :: pieces
           | [] => [String c EmptyString]
           end
  end.

(** The list comprehension of the handler, with the default of
    [data.get]. *)
Definition var_names (variables : option string) : list string :=
  omap (λ v, match strip v with
             | EmptyString => None
             | name => Some name
             end)
    (split_comma (default "a,b,c,d" variables)).

End Parse.

(** No comma in the string. *)
Fixpoint comma_free (s : string) : bool :=
  match s with
  | EmptyString => true
  | String c s' => negb (Ascii.eqb c ",") && comma_free s'
  end.

(** A name as the handler keeps it: not empty, no comma, no white space
    at either end. *)
Definition clean_name (v : string) : Prop :=
  v ≠ EmptyString ∧ comma_free v = true ∧ Parse.strip v = v.

(** ** Notions for the rendering of an expression *)

(** A letter, a digit or an underscore. *)
Definition ident_char (c : ascii) : bool :=
  let n := nat_of_ascii c in
  ((48 <=? n) && (n <=? 57)) || ((65 <=? n) && (n <=? 90))
  || ((97 <=? n) && (n <=? 122)) || (n =? 95).

(** A plain identifier: not empty, letters, digits and underscores only. *)
Fixpoint ident_chars (s : string) : bool :=
  match s with
  | EmptyString => true
  | String c s' => ident_char c && ident_chars s'
  end.

Definition plain_name (v : string) : Prop :=
  v ≠ EmptyString ∧ ident_chars v = true.

(** [And] or [Or]. *)
Definition compound (e : expr) : bool :=
  match e with
  | And _ | Or _ => true
  | _ => false
  end.

Definition args_of (e : expr) : list expr :=
  match e with
  | And args | Or args => args
  | _ => []
  end.

(** A symbol or a negated symbol, named in [var_names]. *)
Definition literal_over (var_names : list string) (e : expr) : Prop :=
  ∃ v, v ∈ var_names ∧ (e = Symbol v ∨ e = Not (Symbol v)).

(** A literal, or a non-empty conjunction or disjunction of literals. *)
Definition part_over (var_names : list string) (p : expr) : Prop :=
  literal_over var_names p
  ∨ (compound p = true ∧ args_of p ≠ []
     ∧ Forall (literal_over var_names) (args_of p)).

(** An expression of at most two levels: a part, or a non-empty
    conjunction or disjunction of parts.  The minimiser's sums of products
    and products of sums have this shape. *)
Definition two_level (var_names : list string) (e : expr) : Prop :=
  literal_over var_names e
  ∨ (compound e = true ∧ args_of e ≠ []
     ∧ Forall (part_over var_names) (args_of e)).

(** The display of a literal: a negated symbol gets a trailing prime. *)
Definition render_literal (e : expr) : string :=
  match e with
  | Not a => sstr a +:+ "'"
  | _ => sstr e
  end.

(** The display of a connective: conjunction is juxtaposition, disjunction
    is [" + "]. *)
Definition render_sep (e : expr) : string :=
  match e with
  | And _ => EmptyString
  | _ => " + "
  end.

(** The display of a two-level expression, read off its structure. *)
Definition render_part (p : expr) : string :=
  if compound p
  then "(" +:+ Py.join (render_sep p) (map render_literal (args_of p)) +:+ ")"
  else render_literal p.

Definition render (e : expr) : string :=
  if compound e
  then Py.join (render_sep e) (map render_part (args_of e))
  else render_literal e.

(** The pieces a printed expression is made of. *)
Inductive item :=
  | Lit (v : string) (negated : bool)
  | AndSep
  | OrSep
  | LParen
  | RParen.

(** The string of a list of items, given the string of each item. *)
Definition flatten (f : item → string) (items : list item) : string :=
  foldr (λ t acc, f t +:+ acc) EmptyString items.

(** Blocks of items with a separator between consecutive blocks. *)
Fixpoint sep_join (sep : item) (blocks : list (list item)) : list item :=
  match blocks with
  | [] => []
  | [b] => b
  | b :: rest => b ++ sep :: sep_join sep rest
  end.

Definition sep_item (e : expr) : item :=
  match e with
  | And _ => AndSep
  | _ => OrSep
  end.

Definition literal_items (e : expr) : list item :=
  match e with
  | Symbol v => [Lit v false]
  | Not (Symbol v) => [Lit v true]
  | _ => []
  end.

Definition part_items (p : expr) : list item :=
  if compound p
  then LParen :: sep_join (sep_item p) (map literal_items (args_of p)) ++ [RParen]
  else literal_items p.

Definition items_of (e : expr) : list item :=
  if compound e
  then sep_join (sep_item e) (map part_items (args_of e))
  else literal_items e.

(** The string of an item at a stage of [format_sympy_expr]: negated
    symbols whose name is in [primed] already carry their prime, the others
    still their tilde; [and_str] and [or_str] are the current texts of the
    two connectives. *)
Definition item_str (primed : list string) (and_str or_str : string) (t : item)
    : string :=
  match t with
  | Lit v false => v
  | Lit v true => if bool_decide (v ∈ primed) then v +:+ "'" else "~" +:+ v
  | AndSep => and_str
  | OrSep => or_str
  | LParen => "("
  | RParen => ")"
  end.

(** What may follow an item: after a literal a connective, a closing
    parenthesis or nothing; after a connective a literal or an opening
    parenthesis. *)
Definition follows (t : item) (next : option item) : bool :=
  match t, next with
  | Lit _ _, (None | Some AndSep | Some OrSep | Some RParen) => true
  | Lit _ _, _ => false
  | (AndSep | OrSep), (Some (Lit _ _) | Some LParen) => true
  | (AndSep | OrSep), _ => false
  | (LParen | RParen), _ => true
  end.

Fixpoint well_spaced (items : list item) : bool :=
  match items with
  | [] => true
  | t :: rest => follows t (head rest) && well_spaced rest
  end.

(** The text after an item, as far as its first character matters. *)
Definition starts_plain (s : string) : Prop :=
  match s with
  | EmptyString => True
  | String c _ => ident_char c = false
  end.

(** The text after a connective starts an operand. *)
Definition starts_operand (s : string) : Prop :=
  match s with
  | EmptyString => False
  | String c _ => c ≠ " "%char ∧ c ≠ "&"%char ∧ c ≠ "|"%char
  end.

(** Every literal among the items bears a plain name. *)
Definition literals_plain (items : list item) : Prop :=
  ∀ v b, Lit v b ∈ items → plain_name v.

(** The order of [sorted(var_names, key=len, reverse=True)]. *)
Definition longer_first (x y : string) : Prop := String.length y ≤ String.length x.

(** A printer of two-level expressions, given the text of a literal and
    of a connective. *)
Definition print_part (lit sep : expr → string) (p : expr) : string :=
  if compound p
  then "(" +:+ Py.join (sep p) (map lit (args_of p)) +:+ ")"
  else lit p.

Definition print (lit sep : expr → string) (e : expr) : string :=
  if compound e
  then Py.join (sep e) (map (print_part lit sep) (args_of e))
  else lit e.

(** The text of a connective in [sstr]. *)
Definition sstr_sep (e : expr) : string :=
  match e with
  | And _ => " & "
  | _ => " | "
  end.

(** A block of items that may stand between two connectives. *)
Definition operand (b : list item) : Prop :=
  well_spaced (AndSep :: b ++ [RParen]) = true.

(** No character of a literal string is the given one. *)
Ltac chars_differ :=
  let c := fresh "c" in
  let Hc := fresh "Hc" in
  intros c Hc; cbn [String.list_ascii_of_string] in Hc;
  repeat (apply elem_of_cons in Hc as [->|Hc]; [discriminate|]);
  by apply elem_of_nil in Hc.

(** * Properties *)

(** ** Worked examples *)

Example expand_ab' :
  get_minterms_for_term (And [Symbol "a"; Not (Symbol "b")])
    (symbols ["a"; "b"; "c"]) = [4; 5].
Proof. vm_compute. reflexivity. Qed.

Example kmap_3 :
  Kmap.map <$> generate_kmap ["a"; "b"; "c"] [3%Z; 6%Z] [7%Z] "f"
  = Some [["0"; "0"; "1"; "0"]; ["0"; "0"; "X"; "1"]].
Proof. vm_compute. reflexivity. Qed.

Example term_sop_docstring :
  group_to_term [4; 5; 6; 7] (symbols ["a"; "b"; "c"; "d"]) "SOP" = "a'b".
Proof. vm_compute. reflexivity. Qed.

Example format_two_products :
  format_sympy_expr
    (Sympy (Or [And [Symbol "y"; Symbol "z"]; And [Not (Symbol "w"); Not (Symbol "x")]]))
    ["w"; "x"; "y"; "z"] "SOP" = "(yz) + (w'x')".
Proof. vm_compute. reflexivity. Qed.

Example solve_single_minterm :
  solve_kmap
    (constant_minimizer
       (And [Not (Symbol "a"); Symbol "b"; Not (Symbol "c"); Symbol "d"]))
    {| Request.var_names := ["a"; "b"; "c"; "d"]; Request.output_name := "f";
       Request.minterms := [5%Z]; Request.dontcares := [];
       Request.form_type := "SOP" |}
  = Response.Solution "a'bc'd"
      {| Response.kmap :=
           {| Kmap.map :=
                [["0"; "0"; "0"; "0"]; ["0"; "1"; "0"; "0"];
                 ["0"; "0"; "0"; "0"]; ["0"; "0"; "0"; "0"]];
              Kmap.row_labels := ["00"; "01"; "11"; "10"];
              Kmap.col_labels := ["00"; "01"; "11"; "10"];
              Kmap.row_vars := "a,b"; Kmap.col_vars := "c,d";
              Kmap.output_name := "f" |};
         Response.groups := [[5]];
         Response.explanations :=
           ["A group is formed around the 1s at positions <strong>[5]</strong>. This simplifies to the term <code>a'bc'd</code>."];
         Response.form_type := "SOP" |}.
Proof. vm_compute. reflexivity. Qed.

Example expand_sympy_true :
  get_minterms_for_term BooleanTrue (symbols ["a"; "b"]) = [0; 1; 2; 3].
Proof. vm_compute. reflexivity. Qed.

Example constants_have_no_groups :
  get_implicant_groups (Sympy BooleanTrue) (symbols ["a"; "b"]) = []
  ∧ get_implicant_groups (Sympy BooleanFalse) (symbols ["a"; "b"]) = [].
Proof. by vm_compute. Qed.

(** Five names with both sets empty: the empty-input branch runs first,
    [generate_kmap] returns [None] and the [update] call raises. *)
Example unsupported_count_with_empty_sets :
  solve_kmap (constant_minimizer BooleanFalse)
    {| Request.var_names := ["a"; "b"; "c"; "d"; "e"]; Request.output_name := "f";
       Request.minterms := []; Request.dontcares := [];
       Request.form_type := "SOP" |}
  = Response.Error
      "An unexpected server error occurred: 'NoneType' object has no attribute 'update'"
      500.
Proof. vm_compute. reflexivity. Qed.

(** ** Binary renderings *)

Lemma lsb_digits_nth fuel : ∀ m k,
  m < 2 ^ fuel → nth k (Py.lsb_digits fuel m) "0"%char = Py.digit (Nat.testbit m k).
Proof.
  induction fuel as [|fuel IH]; intros m k Hm.
  - simpl in Hm. assert (m = 0) as -> by lia. rewrite Nat.bits_0. by destruct k.
  - destruct k as [|k]; [done|].
    cbn [Py.lsb_digits nth Nat.testbit].
    assert (Nat.div2 m < 2 ^ fuel) as Hq.
    { rewrite Nat.div2_div. apply Nat.Div0.div_lt_upper_bound. rewrite Nat.pow_succ_r' in Hm. lia. }
    destruct (Nat.div2 m) as [|q] eqn:Hdiv.
    + rewrite Nat.bits_0. by destruct k.
    + by apply IH.
Qed.

Lemma lsb_digits_length fuel : ∀ m n, m < 2 ^ n → 0 < n → length (Py.lsb_digits fuel m) ≤ n.
Proof.
  induction fuel as [|fuel IH]; intros m n Hm Hn; [simpl; lia|].
  cbn [Py.lsb_digits length].
  destruct (Nat.div2 m) as [|q] eqn:Hdiv; [simpl; lia|].
  destruct n as [|n]; [lia|].
  assert (Nat.div2 m < 2 ^ n) as Hq.
  { rewrite Nat.div2_div. apply Nat.Div0.div_lt_upper_bound. rewrite Nat.pow_succ_r' in Hm. lia. }
  destruct n as [|n]; [simpl in Hq; lia|].
  rewrite Hdiv in Hq. specialize (IH (S q) (S n) Hq). lia.
Qed.

Lemma lt_pow2_S m : m < 2 ^ S m.
Proof. pose proof (Nat.pow_gt_lin_r 2 m). rewrite Nat.pow_succ_r'. lia. Qed.

Lemma format_bin_length width m : width ≤ length (Py.format_bin width m).
Proof. unfold Py.format_bin. rewrite length_app, length_replicate. lia. Qed.

Lemma nth_replicate_default {A} (x : A) n k : nth k (replicate n x) x = x.
Proof. revert k. induction n as [|n IH]; intros [|k]; simpl; auto. Qed.

Lemma format_bin_char n i j :
  i < 2 ^ n → j < n → Py.char_at (Py.format_bin n i) j = Py.digit (bit_at n i j).
Proof.
  intros Hi Hj. unfold Py.char_at, Py.format_bin, Py.bin_digits, bit_at.
  pose proof (lsb_digits_length (S i) i n Hi ltac:(lia)) as Hlen.
  rewrite <- (lsb_digits_nth (S i) i (n - 1 - j) (lt_pow2_S i)).
  rewrite length_rev.
  set (d := Py.lsb_digits (S i) i) in *.
  destruct (decide (j < n - length d)) as [Hlt|Hge].
  - rewrite app_nth1 by (rewrite length_replicate; lia).
    rewrite (nth_overflow d) by lia.
    by rewrite nth_replicate_default. 
  - rewrite app_nth2 by (rewrite length_replicate; lia).
    rewrite length_replicate, rev_nth by lia. f_equal. lia.
Qed.

Lemma int_of_char_digit b : Py.int_of_char (Py.digit b) = polarity_value b.
Proof. by destruct b. Qed.

Lemma digit_eqb a b : Ascii.eqb (Py.digit a) (Py.digit b) = Bool.eqb a b.
Proof. by destruct a, b. Qed.

Lemma polarity_value_inj p q : polarity_value p = polarity_value q → p = q.
Proof. by destruct p, q. Qed.

(** A loop that appends the accepted elements is a filter. *)
Lemma foldl_snoc_if {A} (f : A → bool) (l : list A) (acc : list A) :
  foldl (λ acc x, if f x then acc ++ [x] else acc) acc l
  = acc ++ filter (λ x, f x) l.
Proof.
  revert acc. induction l as [|x l IH]; intros acc; simpl.
  - by rewrite app_nil_r.
  - rewrite IH, filter_cons. destruct (f x) eqn:Hf.
    + rewrite decide_True by done. by rewrite <- app_assoc.
    + by rewrite decide_False by (by intros []).
Qed.

Lemma foldl_snoc_omap {A B} (f : A → option B) (l : list A) (acc : list B) :
  foldl (λ acc x, match f x with Some y => acc ++ [y] | None => acc end) acc l
  = acc ++ omap f l.
Proof.
  revert acc. induction l as [|x l IH]; intros acc; simpl.
  - by rewrite app_nil_r.
  - csimpl. rewrite IH. destruct (f x); [by rewrite <- app_assoc|done].
Qed.

Lemma filter_ext_in {A} (P Q : A → Prop) `{∀ x, Decision (P x)} `{∀ x, Decision (Q x)}
    (l : list A) :
  (∀ x, x ∈ l → P x ↔ Q x) → filter P l = filter Q l.
Proof.
  induction l as [|x l IH]; intros Hext; [done|].
  rewrite !filter_cons.
  assert (P x ↔ Q x) as Hx by (apply Hext; left).
  rewrite IH by (intros y Hy; apply Hext; by right).
  destruct (decide (P x)), (decide (Q x)); tauto || done.
Qed.

(** [is_covered] accepts exactly when every constrained position agrees. *)
Lemma is_covered_spec fixed bin_str variables : ∀ k,
  is_covered fixed bin_str k variables = true ↔
  ∀ j x want, variables !! j = Some x → fixed !! sstr x = Some want →
    Py.int_of_char (Py.char_at bin_str (k + j)) = want.
Proof.
  induction variables as [|y variables IH]; intros k; simpl.
  - split; [|done]. intros _ j x want Hj. by rewrite lookup_nil in Hj.
  - assert ((∀ j x want, (y :: variables) !! j = Some x → fixed !! sstr x = Some want →
               Py.int_of_char (Py.char_at bin_str (k + j)) = want)
            ↔ (∀ want, fixed !! sstr y = Some want →
                 Py.int_of_char (Py.char_at bin_str k) = want)
              ∧ (∀ j x want, variables !! j = Some x → fixed !! sstr x = Some want →
                 Py.int_of_char (Py.char_at bin_str (S k + j)) = want)) as ->.
    { split.
      - intros Hall. split.
        + intros want Hw. specialize (Hall 0 y want eq_refl Hw). by rewrite Nat.add_0_r in Hall.
        + intros j x want Hj Hw. specialize (Hall (S j) x want Hj Hw).
          by rewrite Nat.add_succ_r in Hall.
      - intros [Hhd Htl] [|j] x want Hj Hw; simplify_eq/=.
        + rewrite Nat.add_0_r. by apply Hhd.
        + rewrite Nat.add_succ_r. by eapply Htl. }
    rewrite <- IH.
    destruct (fixed !! sstr y) as [want|] eqn:Hy.
    + destruct (Nat.eqb_spec (Py.int_of_char (Py.char_at bin_str k)) want) as [Heq|Hne]; simpl.
      * split; [|tauto]. intros Hc. split; [|done]. intros w [= <-]. done.
      * split; [done|]. intros [Hhd _]. exfalso. apply Hne. by apply Hhd.
    + split; [|tauto]. intros Hc. by split.
Qed.

(** What [fixed_vars] holds after the first loop. *)
Lemma fix_var_literal arg v p m :
  literal_of arg = Some (v, p) → fix_var m arg = <[v := polarity_value p]> m.
Proof.
  destruct arg as [name| | |a| |]; try done.
  - by intros [= <- <-].
  - destruct a; try done. by intros [= <- <-].
Qed.

Lemma fixed_vars_sound args lits :
  Forall2 (λ a l, literal_of a = Some l) args lits →
  ∀ m v w, foldl fix_var m args !! v = Some w →
  (∃ p, (v, p) ∈ lits ∧ w = polarity_value p) ∨ m !! v = Some w.
Proof.
  induction 1 as [|a [u p] args lits Ha _ IH]; intros m v w Hw; [by right|].
  simpl in Hw. destruct (IH _ v w Hw) as [(q & Hq & ->)|Hm].
  - left. exists q. split; [by right|done].
  - rewrite (fix_var_literal _ _ _ _ Ha), lookup_insert in Hm.
    case_decide; simplify_eq.
    + left. exists p. split; [left|done].
    + by right.
Qed.

Lemma fixed_vars_complete args lits :
  Forall2 (λ a l, literal_of a = Some l) args lits →
  ∀ m v, v ∈ lits.*1 ∨ is_Some (m !! v) →
  is_Some (foldl fix_var m args !! v).
Proof.
  induction 1 as [|a [u p] args lits Ha _ IH]; intros m v Hv.
  - destruct Hv as [Hv|Hv]; [|done]. by apply elem_of_nil in Hv.
  - simpl. rewrite (fix_var_literal _ _ _ _ Ha). apply IH.
    destruct Hv as [Hv|Hv].
    + simpl in Hv. apply elem_of_cons in Hv as [->|Hv]; [|by left].
      right. rewrite lookup_insert_eq. by eexists.
    + right. rewrite lookup_insert. case_decide; [by eexists|done].
Qed.

Lemma fixed_vars_of_spec term lits v w :
  term_literals term = Some lits → consistent lits →
  fixed_vars_of term !! v = Some w ↔ ∃ p, (v, p) ∈ lits ∧ w = polarity_value p.
Proof.
  intros Hlits Hcons. unfold fixed_vars_of, term_literals in *.
  apply mapM_Some in Hlits. split.
  - intros Hw. destruct (fixed_vars_sound _ _ Hlits _ _ _ Hw) as [?|Hm]; [done|].
    by rewrite lookup_empty in Hm.
  - intros (p & Hp & ->).
    destruct (fixed_vars_complete _ _ Hlits ∅ v) as [w Hw].
    { left. apply list_elem_of_fmap. by exists (v, p). }
    rewrite Hw. f_equal.
    destruct (fixed_vars_sound _ _ Hlits _ _ _ Hw) as [(q & Hq & ->)|Hm].
    + by rewrite (Hcons v q p).
    + by rewrite lookup_empty in Hm.
Qed.

(** [matches_literals] in logical form. *)
Lemma matches_literals_spec lits variables i :
  matches_literals lits variables i = true ↔
  ∀ j x p, variables !! j = Some x → (sstr x, p) ∈ lits →
    bit_at (length variables) i j = p.
Proof.
  unfold matches_literals. rewrite forallb_forall. split.
  - intros Hall j x p Hj Hp.
    specialize (Hall (j, x)). simpl in Hall.
    rewrite forallb_forall in Hall.
    assert (In (j, x) (imap pair variables)) as Hin.
    { apply list_elem_of_In, list_elem_of_lookup. exists j.
      by rewrite list_lookup_imap, Hj. }
    specialize (Hall Hin (sstr x, p)). simpl in Hall.
    rewrite String.eqb_refl in Hall. simpl in Hall.
    apply Bool.eqb_prop, Hall. by apply list_elem_of_In.
  - intros Hall [j x] Hin. apply forallb_forall. intros [v p] Hp.
    apply list_elem_of_In, list_elem_of_lookup in Hin as [k Hk].
    rewrite list_lookup_imap in Hk.
    destruct (variables !! k) as [y|] eqn:Hy; simplify_eq/=.
    destruct (String.eqb_spec (sstr x) v) as [<-|]; [|done]. simpl.
    apply list_elem_of_In in Hp.
    rewrite (Hall _ _ _ Hy Hp). by destruct p.
Qed.

(** The expansion of a term of literals, as a filter over all indices. *)
Lemma get_minterms_for_term_filter term variables lits :
  term_literals term = Some lits → consistent lits →
  get_minterms_for_term term variables
  = filter (λ i, matches_literals lits variables i) (seq 0 (2 ^ length variables)).
Proof.
  intros Hlits Hcons. unfold get_minterms_for_term, Py.range.
  rewrite foldl_snoc_if. simpl.
  apply filter_ext_in. intros i Hi.
  apply elem_of_seq in Hi as [_ Hi]. simpl in Hi.
  rewrite !Is_true_true, is_covered_spec, matches_literals_spec.
  split.
  - intros Hcov j x p Hj Hp.
    assert (j < length variables) as Hlt by (by eapply lookup_lt_Some).
    specialize (Hcov j x (polarity_value p) Hj).
    rewrite format_bin_char, int_of_char_digit in Hcov by done.
    apply polarity_value_inj, Hcov.
    apply (fixed_vars_of_spec _ _ _ _ Hlits Hcons). eauto.
  - intros Hall j x want Hj Hw.
    assert (j < length variables) as Hlt by (by eapply lookup_lt_Some).
    apply (fixed_vars_of_spec _ _ _ _ Hlits Hcons) in Hw as (p & Hp & ->).
    rewrite format_bin_char, int_of_char_digit by done.
    change (0 + j) with j. by rewrite (Hall _ _ _ Hj Hp).
Qed.

Lemma omap_ext_in {A B} (f g : A → option B) (l : list A) :
  (∀ x, x ∈ l → f x = g x) → omap f l = omap g l.
Proof.
  induction l as [|x l IH]; intros Hext; [done|]. csimpl.
  rewrite (Hext x) by left. rewrite IH; [done|]. intros y Hy. apply Hext. by right.
Qed.

Lemma forallb_ext_in {A} (f g : A → bool) (l : list A) :
  (∀ x, x ∈ l → f x = g x) → forallb f l = forallb g l.
Proof.
  induction l as [|x l IH]; intros Hext; [done|]. simpl.
  rewrite (Hext x) by left. rewrite IH; [done|]. intros y Hy. apply Hext. by right.
Qed.

Lemma forallb_map {A B} (f : B → bool) (h : A → B) (l : list A) :
  forallb f (map h l) = forallb (λ x, f (h x)) l.
Proof. induction l as [|x l IH]; [done|]. simpl. by rewrite IH. Qed.

(** The test on the binary strings is the test on the bits. *)
Lemma term_part_spec m variables group j :
  group ≠ [] → Forall (λ i, i < 2 ^ length variables) group → j < length variables →
  term_part (map (Py.format_bin (length variables)) group) variables (mode_tag m) j
  = b ← constant_bit (length variables) group j;
    Some (literal_name m (var_str variables j) b).
Proof.
  intros Hne Hrange Hj. unfold term_part, constant_bit.
  destruct group as [|m0 group]; [done|]. clear Hne.
  cbn [map hd].
  assert (m0 < 2 ^ length variables) as Hm0 by (by inversion Hrange).
  rewrite (format_bin_char _ _ _ Hm0 Hj).
  rewrite <- (map_cons (Py.format_bin (length variables))), forallb_map.
  rewrite (forallb_ext_in _ (λ m', Bool.eqb (bit_at (length variables) m' j)
                                     (bit_at (length variables) m0 j))).
  2:{ intros i Hi. rewrite Forall_forall in Hrange.
      rewrite format_bin_char by auto. apply digit_eqb. }
  destruct (forallb _ (m0 :: group)); [|done]. simpl.
  by destruct m, (bit_at (length variables) m0 j).
Qed.

Lemma term_parts_spec m variables group :
  group ≠ [] → Forall (λ i, i < 2 ^ length variables) group →
  term_parts group variables (mode_tag m) = spec_term_parts m variables group.
Proof.
  intros Hne Hrange. unfold term_parts, spec_term_parts, Py.range.
  rewrite foldl_snoc_omap. simpl. apply omap_ext_in.
  intros j Hj. apply elem_of_seq in Hj. apply term_part_spec; [done..|lia].
Qed.

Lemma group_to_term_spec m variables group :
  group ≠ [] → Forall (λ i, i < 2 ^ length variables) group →
  group_to_term group variables (mode_tag m) = spec_group_term m variables group.
Proof.
  intros Hne Hrange. unfold group_to_term, spec_group_term.
  rewrite (term_parts_spec m) by done.
  destruct group; [done|]. by destruct m.
Qed.

(** Claim C3.  For a non-empty group of indices below [2^n] and either
    mode, [group_to_term] returns the specification's term: one literal
    for each bit position that is constant across the group, primed or
    plain by the mode rule (SOP: constant 0 primed, constant 1 plain; POS
    the other way round), non-constant positions dropped, the literals
    concatenated for SOP and joined with " + " inside parentheses for
    POS, and "1" when no position is constant.  For the variables a, b
    the group [0] gives "a'b'" under SOP and "(a + b)" under POS. *)
Theorem group_to_term_constant_bits (m : mode) (variables : list expr) (group : list nat) :
  group ≠ [] → Forall (λ i, i < 2 ^ length variables) group →
  group_to_term group variables (mode_tag m) = spec_group_term m variables group
  ∧ group_to_term [0] (symbols ["a"; "b"]) "SOP" = "a'b'"
  ∧ group_to_term [0] (symbols ["a"; "b"]) "POS" = "(a + b)".
Proof.
  intros Hne Hrange. split; [by apply group_to_term_spec|]. split; by vm_compute.
Qed.

Lemma group_to_term_constant_bits_witness :
  group_to_term [4; 5; 6; 7] (symbols ["a"; "b"; "c"; "d"]) (mode_tag SOP)
  = spec_group_term SOP (symbols ["a"; "b"; "c"; "d"]) [4; 5; 6; 7]
  ∧ group_to_term [0] (symbols ["a"; "b"]) "SOP" = "a'b'"
  ∧ group_to_term [0] (symbols ["a"; "b"]) "POS" = "(a + b)".
Proof.
  apply (group_to_term_constant_bits SOP (symbols ["a"; "b"; "c"; "d"]) [4; 5; 6; 7]).
  - discriminate.
  - repeat constructor; simpl; lia.
Defined.

Lemma filter_all {A} (P : A → Prop) `{∀ x, Decision (P x)} (l : list A) :
  (∀ x, x ∈ l → P x) → filter P l = l.
Proof.
  induction l as [|x l IH]; intros Hall; [done|].
  rewrite filter_cons, decide_True by (apply Hall; left).
  rewrite IH; [done|]. intros y Hy. apply Hall. by right.
Qed.

(** Claim C1.  For a term made of literals in which no variable occurs
    with both polarities, [get_minterms_for_term] returns the indices of
    [0, 2^n) in increasing order (a filter of [seq 0 (2^n)]) that agree
    with every literal: an index is returned exactly when it is below
    [2^n] and its bit at every position carrying a literal's variable
    equals the literal's polarity.  A term without literals yields all
    [2^n] indices. *)
Theorem get_minterms_for_term_correct (term : expr) (variables : list expr)
    (lits : list (string * bool)) :
  term_literals term = Some lits → consistent lits →
  get_minterms_for_term term variables
  = filter (λ i, matches_literals lits variables i) (seq 0 (2 ^ length variables))
  ∧ (∀ i, i ∈ get_minterms_for_term term variables ↔
       i < 2 ^ length variables
       ∧ ∀ j x p, variables !! j = Some x → (sstr x, p) ∈ lits →
           Nat.testbit i (length variables - 1 - j) = p)
  ∧ (lits = [] → get_minterms_for_term term variables = seq 0 (2 ^ length variables)).
Proof.
  intros Hlits Hcons.
  pose proof (get_minterms_for_term_filter term variables lits Hlits Hcons) as Heq.
  split; [done|]. split.
  - intros i. rewrite Heq, list_elem_of_filter, elem_of_seq, Is_true_true.
    rewrite matches_literals_spec. unfold bit_at. simpl.
    split; [intros [? [_ ?]]|intros [? ?]]; (split; [lia || done|lia || done]).
  - intros ->. rewrite Heq. apply filter_all. intros i _.
    apply Is_true_true, matches_literals_spec. intros j x p _ Hp.
    by apply elem_of_nil in Hp.
Qed.

Lemma consistent_example : consistent [("a", true); ("b", false)].
Proof.
  intros v p q Hp Hq.
  repeat match goal with
         | H : _ ∈ _ :: _ |- _ => apply elem_of_cons in H as [H|H]
         | H : _ ∈ [] |- _ => by apply elem_of_nil in H
         end; congruence.
Qed.

Lemma get_minterms_for_term_correct_witness :
  let term := And [Symbol "a"; Not (Symbol "b")] in
  let variables := symbols ["a"; "b"; "c"] in
  let lits := [("a", true); ("b", false)] in
  get_minterms_for_term term variables
  = filter (λ i, matches_literals lits variables i) (seq 0 (2 ^ length variables))
  ∧ (∀ i, i ∈ get_minterms_for_term term variables ↔
       i < 2 ^ length variables
       ∧ ∀ j x p, variables !! j = Some x → (sstr x, p) ∈ lits →
           Nat.testbit i (length variables - 1 - j) = p)
  ∧ (lits = [] → get_minterms_for_term term variables = seq 0 (2 ^ length variables)).
Proof.
  apply (get_minterms_for_term_correct (And [Symbol "a"; Not (Symbol "b")])
           (symbols ["a"; "b"; "c"]) [("a", true); ("b", false)]).
  - reflexivity.
  - exact consistent_example.
Defined.

(** Every assignment of the low [n] bits is the bit pattern of an index. *)
Lemma index_of_bits n : ∀ f : nat → bool,
  ∃ i, i < 2 ^ n ∧ ∀ k, k < n → Nat.testbit i k = f k.
Proof.
  induction n as [|n IH]; intros f.
  - exists 0. split; [simpl; lia|]. intros k Hk. lia.
  - destruct (IH (λ k, f (S k))) as (i & Hi & Hbits).
    exists (2 * i + Nat.b2n (f 0)). split.
    + rewrite Nat.pow_succ_r'. destruct (f 0); simpl; lia.
    + intros [|k] Hk.
      * apply Nat.testbit_0_r.
      * rewrite Nat.testbit_succ_r. apply Hbits. lia.
Qed.

Section expansion.
Context (variables : list expr) (lits : list (string * bool)).
Hypothesis lits_consistent : consistent lits.

Let n := length variables.
Let group := filter (λ i, matches_literals lits variables i) (seq 0 (2 ^ n)).

Lemma elem_of_group i :
  i ∈ group ↔
  i < 2 ^ n ∧ ∀ j x p, variables !! j = Some x → (sstr x, p) ∈ lits → bit_at n i j = p.
Proof.
  unfold group. rewrite list_elem_of_filter, elem_of_seq, Is_true_true.
  rewrite matches_literals_spec. fold n. simpl.
  split; [intros [? [_ ?]]|intros [? ?]]; (split; [lia || done|lia || done]).
Qed.

Lemma group_in_range : Forall (λ i, i < 2 ^ n) group.
Proof. apply Forall_forall. intros i Hi. by apply elem_of_group in Hi as [? _]. Qed.

Lemma group_inhabited : ∃ i, i ∈ group.
Proof.
  destruct (index_of_bits n
              (λ k, match variables !! (n - 1 - k) with
                    | Some x => bool_decide ((sstr x, true) ∈ lits)
                    | None => false
                    end)) as (i & Hi & Hbits).
  exists i. apply elem_of_group. split; [done|].
  intros j x p Hj Hp.
  assert (j < n) as Hlt by (by eapply lookup_lt_Some).
  unfold bit_at. rewrite Hbits by lia.
  replace (n - 1 - (n - 1 - j)) with j by lia. rewrite Hj.
  destruct p.
  - by apply bool_decide_eq_true.
  - apply bool_decide_eq_false. intros Ht. by specialize (lits_consistent _ _ _ Hp Ht).
Qed.

Lemma group_flip i j x :
  i ∈ group → variables !! j = Some x → sstr x ∉ lits.*1 →
  ∃ i', i' ∈ group ∧ bit_at n i' j = negb (bit_at n i j).
Proof.
  intros Hi Hj Hfree.
  assert (j < n) as Hlt by (by eapply lookup_lt_Some).
  apply elem_of_group in Hi as [_ Hi].
  destruct (index_of_bits n
              (λ k, if decide (k = n - 1 - j) then negb (Nat.testbit i k)
                    else Nat.testbit i k)) as (i' & Hi' & Hbits).
  exists i'. split.
  - apply elem_of_group. split; [done|].
    intros j' x' p Hj' Hp.
    assert (j' < n) as Hlt' by (by eapply lookup_lt_Some).
    unfold bit_at. rewrite Hbits by lia.
    rewrite decide_False.
    + by apply Hi with x'.
    + intros Heq. assert (j' = j) as -> by lia. simplify_eq.
      apply Hfree, list_elem_of_fmap. by exists (sstr x, p).
  - unfold bit_at. rewrite Hbits by lia. by rewrite decide_True.
Qed.

(** A position is constant across the expansion exactly when a literal
    constrains its variable, and then it has the literal's polarity. *)
Lemma constant_bit_group j x b :
  variables !! j = Some x →
  constant_bit n group j = Some b ↔ (sstr x, b) ∈ lits.
Proof.
  intros Hj.
  destruct group_inhabited as [i0 Hi0].
  destruct group as [|m0 rest] eqn:Hgroup; [by apply elem_of_nil in Hi0|].
  assert (m0 ∈ group) as Hm0 by (rewrite Hgroup; left).
  unfold constant_bit. split.
  - destruct (forallb _ _) eqn:Hall; [|done]. intros [= <-].
    destruct (decide (sstr x ∈ lits.*1)) as [Hin|Hfree].
    + apply list_elem_of_fmap in Hin as ([v p] & Hv & Hp). simpl in Hv. subst v.
      apply elem_of_group in Hm0 as [_ Hm0]. by rewrite (Hm0 _ _ _ Hj Hp).
    + destruct (group_flip _ _ _ Hm0 Hj Hfree) as (i' & Hi' & Hflip).
      rewrite forallb_forall in Hall.
      rewrite Hgroup in Hi'. apply list_elem_of_In, Hall in Hi'.
      rewrite Hflip in Hi'. by destruct (bit_at n m0 j).
  - intros Hb.
    assert (∀ i, i ∈ group → bit_at n i j = b) as Hconst.
    { intros i Hi. apply elem_of_group in Hi as [_ Hi]. by apply Hi with x. }
    rewrite (Hconst m0 Hm0).
    rewrite (proj2 (forallb_forall _ _)); [done|].
    intros i Hi. apply list_elem_of_In in Hi. rewrite <- Hgroup in Hi.
    rewrite (Hconst i Hi). by destruct b.
Qed.
End expansion.

Lemma symbols_length var_names : length (symbols var_names) = length var_names.
Proof. apply length_map. Qed.

Lemma symbols_lookup var_names j : symbols var_names !! j = Symbol <$> var_names !! j.
Proof. apply list_lookup_fmap. Qed.

Lemma var_str_symbols var_names j v :
  var_names !! j = Some v → var_str (symbols var_names) j = v.
Proof. intros Hj. unfold var_str. by rewrite symbols_lookup, Hj. Qed.

Lemma Forall2_omap {A B C} (R : B → C → Prop) (f : A → option B) (g : A → option C)
    (l : list A) :
  (∀ x, option_Forall2 R (f x) (g x)) → Forall2 R (omap f l) (omap g l).
Proof.
  intros Hfg. induction l as [|x l IH]; [constructor|]. csimpl.
  destruct (Hfg x); [by constructor|done].
Qed.

Lemma derived_literals_SOP var_names group :
  Forall2 (λ a l, literal_of a = Some l)
    (derived_literals SOP var_names group) (derived_pairs var_names group).
Proof.
  apply Forall2_omap. intros j.
  destruct (constant_bit _ _ _) as [b|]; [|constructor]. simpl.
  destruct (var_names !! j) as [v|]; [|constructor]. simpl.
  constructor. by destruct b.
Qed.

Lemma derived_literals_POS var_names group :
  Forall2 (λ a l, literal_of (complement_literal a) = Some l)
    (derived_literals POS var_names group) (derived_pairs var_names group).
Proof.
  apply Forall2_omap. intros j.
  destruct (constant_bit _ _ _) as [b|]; [|constructor]. simpl.
  destruct (var_names !! j) as [v|]; [|constructor]. simpl.
  constructor. by destruct b.
Qed.

Lemma literal_term_args a l : literal_of a = Some l → term_args a = [a].
Proof. by destruct a. Qed.

Lemma term_literals_of_literals m dl ls :
  Forall2 (λ a l, literal_of a = Some l) dl ls → dl ≠ [] →
  term_literals (term_of_literals m dl) = Some ls.
Proof.
  intros Hall Hne. unfold term_literals.
  assert (term_args (term_of_literals m dl) = dl) as ->.
  { destruct Hall as [|a l dl ls Ha Hall]; [done|].
    destruct Hall; simpl; [by eapply literal_term_args|by destruct m]. }
  by apply mapM_Some.
Qed.

Lemma term_literals_of_complement dl ls :
  Forall2 (λ a l, literal_of (complement_literal a) = Some l) dl ls → dl ≠ [] →
  term_literals (complement_literals (term_of_literals POS dl)) = Some ls.
Proof.
  intros Hall Hne. unfold term_literals.
  assert (term_args (complement_literals (term_of_literals POS dl))
          = map complement_literal dl) as ->.
  { destruct Hall as [|a l dl ls Ha Hall]; [done|].
    destruct Hall; simpl; [|done].
    destruct a as [| | |[]| |]; try done. }
  apply mapM_Some. change (map complement_literal dl) with (complement_literal <$> dl).
  by apply Forall2_fmap_l.
Qed.

Lemma nonempty_elem {A} (l : list A) : l ≠ [] → ∃ x, x ∈ l.
Proof. destruct l as [|x l]; [done|]. intros _. exists x. left. Qed.

Section round_trip.
Context (var_names : list string) (lits : list (string * bool)).
Hypothesis lits_consistent : consistent lits.

Let variables := symbols var_names.
Let group :=
  filter (λ i, matches_literals lits variables i) (seq 0 (2 ^ length variables)).

Lemma elem_of_derived_pairs v b :
  (v, b) ∈ derived_pairs var_names group ↔ v ∈ var_names ∧ (v, b) ∈ lits.
Proof.
  unfold derived_pairs. rewrite list_elem_of_omap. split.
  - intros (j & _ & Hj).
    destruct (constant_bit _ _ _) as [b'|] eqn:Hb; [|done]. simpl in Hj.
    destruct (var_names !! j) as [v'|] eqn:Hv; simplify_eq/=.
    split; [by eapply list_elem_of_lookup_2|].
    rewrite <- symbols_length in Hb.
    apply (constant_bit_group variables lits lits_consistent j (Symbol v) b) in Hb; [done|].
    unfold variables. by rewrite symbols_lookup, Hv.
  - intros [Hv Hb]. apply list_elem_of_lookup in Hv as [j Hj].
    exists j. split; [apply elem_of_seq; apply lookup_lt_Some in Hj; lia|].
    assert (constant_bit (length var_names) group j = Some b) as ->.
    { rewrite <- symbols_length.
      apply (constant_bit_group variables lits lits_consistent j (Symbol v) b); [|done].
      unfold variables. by rewrite symbols_lookup, Hj. }
    simpl. by rewrite Hj.
Qed.

Lemma derived_pairs_consistent : consistent (derived_pairs var_names group).
Proof.
  intros v p q Hp Hq. apply elem_of_derived_pairs in Hp as [_ Hp], Hq as [_ Hq].
  by apply (lits_consistent v).
Qed.

Lemma derived_pairs_inhabited :
  lits ≠ [] → (∀ v p, (v, p) ∈ lits → v ∈ var_names) →
  derived_pairs var_names group ≠ [].
Proof.
  intros lits_inhabited lits_named.
  destruct (nonempty_elem lits lits_inhabited) as [[v p] Hvp].
  assert ((v, p) ∈ derived_pairs var_names group) as Hin.
  { apply elem_of_derived_pairs. split; [|done]. by apply (lits_named v p). }
  intros Hnil. rewrite Hnil in Hin. by apply elem_of_nil in Hin.
Qed.

Lemma derived_pairs_expand :
  filter (λ i, matches_literals (derived_pairs var_names group) variables i)
    (seq 0 (2 ^ length variables)) = group.
Proof.
  apply filter_ext_in. intros i _. rewrite !Is_true_true, !matches_literals_spec.
  split; intros Hall j x p Hj Hp; apply (Hall j x p Hj).
  - apply elem_of_derived_pairs. split; [|done].
    unfold variables in Hj. rewrite symbols_lookup in Hj.
    destruct (var_names !! j) as [v|] eqn:Hv; simplify_eq/=.
    by eapply list_elem_of_lookup_2.
  - by apply elem_of_derived_pairs in Hp as [_ ?].
Qed.
End round_trip.

Lemma derived_literals_shape m var_names group a :
  a ∈ derived_literals m var_names group → ∃ v, a = Symbol v ∨ a = Not (Symbol v).
Proof.
  unfold derived_literals. rewrite list_elem_of_omap. intros (j & _ & Hj).
  destruct (constant_bit _ _ _) as [b|]; [|done]. simpl in Hj.
  destruct (var_names !! j) as [v|]; [|done]. simpl in Hj.
  exists v. destruct m, b; simplify_eq; auto.
Qed.

(** The derived term is displayed as the specification's term. *)
Lemma display_derived_term m var_names group :
  display_term m (derived_term m var_names group)
  = spec_group_term m (symbols var_names) group.
Proof.
  unfold spec_group_term, derived_term.
  assert (spec_term_parts m (symbols var_names) group
          = map display_literal (derived_literals m var_names group)) as ->.
  { unfold spec_term_parts, derived_literals.
    change (map display_literal ?l) with (display_literal <$> l).
    rewrite list_fmap_omap, symbols_length. apply omap_ext_in.
    intros j Hj. apply elem_of_seq in Hj as [_ Hj]. simpl in Hj.
    destruct (lookup_lt_is_Some_2 var_names j Hj) as [v Hv].
    rewrite (var_str_symbols _ _ _ Hv), Hv.
    destruct (constant_bit _ _ _) as [b|]; [|done]. simpl.
    by destruct m, b. }
  pose proof (derived_literals_shape m var_names group) as Hshape.
  destruct (derived_literals m var_names group) as [|a [|a' dl]]; [done| |].
  - destruct (Hshape a) as [v [-> | ->]]; [left|by destruct m..].
  - by destruct m.
Qed.

(** Claim C2, as amended.  Take a group obtained by expanding a term whose
    literals are consistent, at least one, and over the listed variables.
    The term [group_to_term] displays for the group under SOP expands back
    to the same group; the term it displays under POS has every polarity
    inverted, and expands back to the group once each literal is
    complemented. *)
Theorem round_trip_SOP_and_complemented_POS (term : expr) (var_names : list string)
    (lits : list (string * bool)) :
  term_literals term = Some lits → consistent lits → lits ≠ [] →
  (∀ v p, (v, p) ∈ lits → v ∈ var_names) →
  let variables := symbols var_names in
  let group := get_minterms_for_term term variables in
  display_term SOP (derived_term SOP var_names group) = group_to_term group variables "SOP"
  ∧ get_minterms_for_term (derived_term SOP var_names group) variables = group
  ∧ display_term POS (derived_term POS var_names group) = group_to_term group variables "POS"
  ∧ get_minterms_for_term (complement_literals (derived_term POS var_names group)) variables
    = group.
Proof.
  intros Hlits Hcons Hne Hnamed variables group.
  assert (group = filter (λ i, matches_literals lits variables i)
                    (seq 0 (2 ^ length variables))) as Hgroup
    by (by apply get_minterms_for_term_filter).
  assert (group ≠ []) as Hgne.
  { destruct (group_inhabited variables lits Hcons) as [i Hi].
    rewrite Hgroup. intros Hnil. rewrite Hnil in Hi. by apply elem_of_nil in Hi. }
  assert (Forall (λ i, i < 2 ^ length variables) group) as Hrange
    by (rewrite Hgroup; apply group_in_range).
  pose proof (derived_pairs_consistent var_names lits Hcons) as Hpc.
  pose proof (derived_pairs_inhabited var_names lits Hcons Hne Hnamed) as Hpne.
  pose proof (derived_pairs_expand var_names lits Hcons) as Hexp.
  fold variables in Hpc, Hpne, Hexp. rewrite <- Hgroup in Hpc, Hpne, Hexp.
  assert (derived_literals SOP var_names group ≠ []) as Hsne.
  { intros Hnil. pose proof (derived_literals_SOP var_names group) as Hall.
    rewrite Hnil in Hall. by inversion Hall. }
  assert (derived_literals POS var_names group ≠ []) as Hpne'.
  { intros Hnil. pose proof (derived_literals_POS var_names group) as Hall.
    rewrite Hnil in Hall. by inversion Hall. }
  repeat split.
  - rewrite display_derived_term. symmetry. by apply (group_to_term_spec SOP).
  - rewrite (get_minterms_for_term_filter _ _ (derived_pairs var_names group));
      [exact Hexp| |exact Hpc].
    apply term_literals_of_literals; [apply derived_literals_SOP|done].
  - rewrite display_derived_term. symmetry. by apply (group_to_term_spec POS).
  - rewrite (get_minterms_for_term_filter _ _ (derived_pairs var_names group));
      [exact Hexp| |exact Hpc].
    apply term_literals_of_complement; [apply derived_literals_POS|done].
Qed.

Lemma consistent_singleton v p : consistent [(v, p)].
Proof.
  intros u q r Hq Hr.
  apply list_elem_of_singleton in Hq, Hr. congruence.
Qed.

Lemma round_trip_SOP_and_complemented_POS_witness :
  let variables := symbols ["a"; "b"] in
  let group := get_minterms_for_term (Not (Symbol "a")) variables in
  display_term SOP (derived_term SOP ["a"; "b"] group) = group_to_term group variables "SOP"
  ∧ get_minterms_for_term (derived_term SOP ["a"; "b"] group) variables = group
  ∧ display_term POS (derived_term POS ["a"; "b"] group) = group_to_term group variables "POS"
  ∧ get_minterms_for_term (complement_literals (derived_term POS ["a"; "b"] group)) variables
    = group.
Proof.
  apply (round_trip_SOP_and_complemented_POS (Not (Symbol "a")) ["a"; "b"] [("a", false)]).
  - reflexivity.
  - apply consistent_singleton.
  - discriminate.
  - intros v p Hv. apply list_elem_of_singleton in Hv. injection Hv as -> ->. left.
Defined.

(** Claim C2, counterexample.  Over a, b the term [~a & ~b] expands to the
    group [0]; under POS the group is displayed as "(a + b)", and
    expanding that term gives [3], not [0]. *)
Lemma round_trip_fails_under_POS :
  let variables := symbols ["a"; "b"] in
  let group := get_minterms_for_term (And [Not (Symbol "a"); Not (Symbol "b")]) variables in
  group = [0]
  ∧ group_to_term group variables "POS" = "(a + b)"
  ∧ derived_term POS ["a"; "b"] group = Or [Symbol "a"; Symbol "b"]
  ∧ get_minterms_for_term (derived_term POS ["a"; "b"] group) variables = [3]
  ∧ get_minterms_for_term (derived_term POS ["a"; "b"] group) variables ≠ group.
Proof. vm_compute. repeat split; discriminate. Qed.

(** ** The grid *)

Lemma set_cell_shape dims kmap r c val :
  grid_shape dims kmap → grid_shape dims (set_cell kmap r c val).
Proof.
  intros [Hrows Hcols]. unfold set_cell.
  destruct (kmap !! r) as [row|] eqn:Hrow; [|done]. split.
  - by rewrite length_insert.
  - apply Forall_insert; [done|]. rewrite length_insert.
    by apply (Forall_lookup_1 _ kmap r row Hcols).
Qed.

Lemma set_cell_same dims kmap r c val :
  grid_shape dims kmap → r < dims.1 → c < dims.2 →
  grid_cell (set_cell kmap r c val) (r, c) = Some val.
Proof.
  intros [Hrows Hcols] Hr Hc. unfold set_cell, grid_cell. simpl.
  destruct (lookup_lt_is_Some_2 kmap r ltac:(lia)) as [row Hrow].
  rewrite Hrow, list_lookup_insert_eq by lia. simpl.
  apply list_lookup_insert_eq.
  rewrite (Forall_lookup_1 _ kmap r row Hcols Hrow). lia.
Qed.

Lemma set_cell_other kmap r c val pos :
  pos ≠ (r, c) → grid_cell (set_cell kmap r c val) pos = grid_cell kmap pos.
Proof.
  intros Hne. destruct pos as [r' c']. unfold set_cell, grid_cell. simpl.
  destruct (kmap !! r) as [row|] eqn:Hrow; [|done].
  destruct (decide (r' = r)) as [->|Hr].
  - rewrite list_lookup_insert_eq by (by eapply lookup_lt_Some). simpl.
    rewrite Hrow. simpl. apply list_lookup_insert_ne. congruence.
  - by rewrite list_lookup_insert_ne.
Qed.

(** Writing the values of a list of indices whose positions are in the
    grid and pairwise distinct leaves every index's value in its cell. *)
Lemma fill_cells dims (pos : nat → nat * nat) (val : nat → string) (l : list nat) :
  (∀ i, i ∈ l → (pos i).1 < dims.1 ∧ (pos i).2 < dims.2) →
  (∀ i j, i ∈ l → j ∈ l → pos i = pos j → i = j) →
  ∀ kmap, grid_shape dims kmap →
  let kmap' := foldl (λ k i, let '(r, c) := pos i in set_cell k r c (val i)) kmap l in
  grid_shape dims kmap' ∧ ∀ i, i ∈ l → grid_cell kmap' (pos i) = Some (val i).
Proof.
  induction l as [|a l IH] using rev_ind; intros Hin Hinj kmap Hshape; simpl.
  - split; [done|]. intros i Hi. by apply elem_of_nil in Hi.
  - rewrite foldl_app. simpl.
    assert (∀ i, i ∈ l → i ∈ l ++ [a]) as Hl by (intros; apply elem_of_app; by left).
    assert (a ∈ l ++ [a]) as Hal by (apply elem_of_app; right; left).
    destruct (IH (λ i Hi, Hin i (Hl i Hi))
                 (λ i j Hi Hj, Hinj i j (Hl i Hi) (Hl j Hj)) kmap Hshape)
      as [Hshape' Hcells].
    destruct (pos a) as [r c] eqn:Ha.
    split; [by apply set_cell_shape|].
    intros i Hi. destruct (decide (i = a)) as [->|Hne].
    + rewrite Ha. destruct (Hin a Hal) as [Hr Hc]. rewrite Ha in Hr, Hc.
      by eapply set_cell_same.
    + assert (i ∈ l) as Hil.
      { apply elem_of_app in Hi as [Hi|Hi]; [done|].
        apply list_elem_of_singleton in Hi. done. }
      rewrite set_cell_other; [by apply Hcells|].
      rewrite <- Ha. intros Heq. by apply Hne, Hinj; auto.
Qed.

Lemma initial_grid_shape rows cols :
  grid_shape (rows, cols) (replicate rows (replicate cols "0")).
Proof.
  split; simpl; [by rewrite length_replicate|].
  apply Forall_replicate. by rewrite length_replicate.
Qed.

Lemma supported_lengths (variables : list string) :
  length variables ∈ [2; 3; 4] →
  (∃ a b, variables = [a; b]) ∨ (∃ a b c, variables = [a; b; c])
  ∨ (∃ a b c d, variables = [a; b; c; d]).
Proof.
  intros Hlen.
  assert (length variables = 2 ∨ length variables = 3 ∨ length variables = 4) as Hcases.
  { repeat (apply elem_of_cons in Hlen as [Hlen|Hlen]; [tauto|]).
    by apply elem_of_nil in Hlen. }
  destruct variables as [|a [|b [|c [|d [|e rest]]]]]; simpl in Hcases; try lia.
  - left; eauto.
  - right; left; eauto.
  - right; right; eauto 10.
Qed.

Lemma cell_table_checked (variables : list string) :
  length variables ∈ [2; 3; 4] →
  cells_in_grid variables = true ∧ cells_distinct variables = true
  ∧ cells_onto variables = true ∧ cells_adjacent variables = true.
Proof.
  intros Hlen.
  destruct (supported_lengths variables Hlen)
    as [(a & b & ->)|[(a & b & c & ->)|(a & b & c & d & ->)]];
    repeat split; vm_compute; reflexivity.
Qed.

Section cell_table.
Context (variables : list string).
Hypothesis supported : length variables ∈ [2; 3; 4].

Let n := length variables.
Let dims := grid_dims n.

Lemma cell_of_in_grid i :
  i < 2 ^ n → (cell_of variables i).1 < dims.1 ∧ (cell_of variables i).2 < dims.2.
Proof.
  intros Hi. destruct (cell_table_checked variables supported) as (Hgrid & _).
  unfold cells_in_grid in Hgrid. rewrite forallb_forall in Hgrid.
  specialize (Hgrid i). simpl in Hgrid.
  rewrite andb_true_iff, !Nat.ltb_lt in Hgrid. apply Hgrid.
  apply list_elem_of_In, elem_of_seq. fold n. lia.
Qed.

Lemma cell_of_injective i j :
  i < 2 ^ n → j < 2 ^ n → cell_of variables i = cell_of variables j → i = j.
Proof.
  intros Hi Hj Heq. destruct (cell_table_checked variables supported) as (_ & Hdist & _).
  unfold cells_distinct in Hdist. rewrite forallb_forall in Hdist.
  specialize (Hdist i). simpl in Hdist. rewrite forallb_forall in Hdist.
  specialize (Hdist ltac:(apply list_elem_of_In, elem_of_seq; fold n; lia) j
                    ltac:(apply list_elem_of_In, elem_of_seq; fold n; lia)).
  rewrite bool_decide_eq_true_2 in Hdist by done. by apply Nat.eqb_eq in Hdist.
Qed.

Lemma cell_of_surjective r c :
  r < dims.1 → c < dims.2 → ∃ i, i < 2 ^ n ∧ cell_of variables i = (r, c).
Proof.
  intros Hr Hc. destruct (cell_table_checked variables supported) as (_ & _ & Honto & _).
  unfold cells_onto in Honto. rewrite forallb_forall in Honto.
  specialize (Honto r ltac:(apply list_elem_of_In, elem_of_seq; fold n dims; lia)).
  simpl in Honto. rewrite forallb_forall in Honto.
  specialize (Honto c ltac:(apply list_elem_of_In, elem_of_seq; fold n dims; lia)).
  apply existsb_exists in Honto as (i & Hi & Hcell).
  apply list_elem_of_In, elem_of_seq in Hi. apply bool_decide_eq_true in Hcell.
  exists i. split; [fold n in Hi; lia|done].
Qed.

Lemma cell_of_adjacent i j :
  i < 2 ^ n → j < 2 ^ n → hamming_distance n i j = 1 →
  grid_distance dims (cell_of variables i) (cell_of variables j) = 1.
Proof.
  intros Hi Hj Hham. destruct (cell_table_checked variables supported) as (_ & _ & _ & Hadj).
  unfold cells_adjacent in Hadj. rewrite forallb_forall in Hadj.
  specialize (Hadj i). simpl in Hadj. rewrite forallb_forall in Hadj.
  specialize (Hadj ltac:(apply list_elem_of_In, elem_of_seq; fold n; lia) j
                   ltac:(apply list_elem_of_In, elem_of_seq; fold n; lia)).
  fold n in Hadj. rewrite Hham in Hadj. simpl in Hadj. by apply Nat.eqb_eq in Hadj.
Qed.

(** Every index finds its own value in its cell of the finished grid. *)
Lemma generate_kmap_cells minterms dontcares output_name :
  ∃ k, generate_kmap variables minterms dontcares output_name = Some k
       ∧ grid_shape dims (Kmap.map k)
       ∧ ∀ i, i < 2 ^ n →
           grid_cell (Kmap.map k) (cell_of variables i)
           = Some (default "0" (all_terms_of minterms dontcares !! Z.of_nat i)).
Proof.
  unfold generate_kmap. rewrite bool_decide_eq_true_2 by done. simpl.
  fold n dims. destruct dims as [rows cols] eqn:Hdims.
  eexists. split; [done|]. simpl.
  pose proof (fill_cells (rows, cols) (cell_of variables)
                (λ i, default "0" (all_terms_of minterms dontcares !! Z.of_nat i))
                (seq 0 (2 ^ n))) as Hfill.
  destruct (Hfill
              ltac:(intros i Hi; apply elem_of_seq in Hi; rewrite <- Hdims;
                    apply cell_of_in_grid; lia)
              ltac:(intros i j Hi Hj; apply elem_of_seq in Hi, Hj;
                    apply cell_of_injective; lia)
              _ (initial_grid_shape rows cols)) as [Hshape Hcells].
  split; [exact Hshape|].
  intros i Hi. apply Hcells, elem_of_seq. lia.
Qed.
End cell_table.

Lemma dict_of_lookup keys val k :
  dict_of keys val !! k = if decide (k ∈ keys) then Some val else None.
Proof.
  unfold dict_of.
  assert (∀ d : gmap Z string, foldl (λ d k, <[k := val]> d) d keys !! k
               = if decide (k ∈ keys) then Some val else d !! k) as Hgen.
  { induction keys as [|a keys IH]; intros d; cbn [foldl].
    - rewrite decide_False; [done|]. apply not_elem_of_nil.
    - rewrite IH. destruct (decide (k ∈ keys)) as [Hin|Hnin].
      + rewrite decide_True; [done|]. by right.
      + rewrite lookup_insert. destruct (decide (a = k)) as [->|Hne].
        * rewrite decide_True; [done|]. left.
        * rewrite decide_False; [done|]. intros Hin. apply elem_of_cons in Hin.
          destruct Hin; congruence. }
  rewrite Hgen. by rewrite lookup_empty.
Qed.

(** Where both dictionaries have a key, the don't-care entry is kept. *)
Lemma all_terms_lookup minterms dontcares k :
  all_terms_of minterms dontcares !! k
  = if decide (k ∈ dontcares) then Some "X"
    else if decide (k ∈ minterms) then Some "1" else None.
Proof.
  unfold all_terms_of. rewrite lookup_union, !dict_of_lookup.
  by destruct (decide (k ∈ dontcares)), (decide (k ∈ minterms)).
Qed.

(** Claim C10.  For 2, 3 or 4 variables the index-to-cell mapping of
    [generate_kmap] sends [0, 2^n) into the grid, is injective there and
    reaches every cell; hence in the finished grid the cell of each index
    holds that index's own value: no write is overwritten. *)
Theorem cell_of_bijection (variables : list string) :
  length variables ∈ [2; 3; 4] →
  let n := length variables in
  let dims := grid_dims n in
  (∀ i, i < 2 ^ n → (cell_of variables i).1 < dims.1 ∧ (cell_of variables i).2 < dims.2)
  ∧ (∀ i j, i < 2 ^ n → j < 2 ^ n → cell_of variables i = cell_of variables j → i = j)
  ∧ (∀ r c, r < dims.1 → c < dims.2 → ∃ i, i < 2 ^ n ∧ cell_of variables i = (r, c))
  ∧ (∀ minterms dontcares output_name,
       ∃ k, generate_kmap variables minterms dontcares output_name = Some k
            ∧ ∀ i, i < 2 ^ n →
                grid_cell (Kmap.map k) (cell_of variables i)
                = Some (default "0" (all_terms_of minterms dontcares !! Z.of_nat i))).
Proof.
  intros Hlen n dims. split; [|split; [|split]].
  - by apply cell_of_in_grid.
  - by apply cell_of_injective.
  - by apply cell_of_surjective.
  - intros minterms dontcares output_name.
    destruct (generate_kmap_cells variables Hlen minterms dontcares output_name)
      as (k & Hk & _ & Hcells).
    by exists k.
Qed.

Lemma cell_of_bijection_witness :
  let variables := ["a"; "b"; "c"] in
  let n := length variables in
  let dims := grid_dims n in
  (∀ i, i < 2 ^ n → (cell_of variables i).1 < dims.1 ∧ (cell_of variables i).2 < dims.2)
  ∧ (∀ i j, i < 2 ^ n → j < 2 ^ n → cell_of variables i = cell_of variables j → i = j)
  ∧ (∀ r c, r < dims.1 → c < dims.2 → ∃ i, i < 2 ^ n ∧ cell_of variables i = (r, c))
  ∧ (∀ minterms dontcares output_name,
       ∃ k, generate_kmap variables minterms dontcares output_name = Some k
            ∧ ∀ i, i < 2 ^ n →
                grid_cell (Kmap.map k) (cell_of variables i)
                = Some (default "0" (all_terms_of minterms dontcares !! Z.of_nat i))).
Proof.
  apply (cell_of_bijection ["a"; "b"; "c"]). simpl. right. left.
Defined.

(** Claim C5.  For 2, 3 or 4 variables, two indices below [2^n] that
    differ in exactly one bit are placed in cells at Manhattan distance 1,
    where a step across a grid edge to the opposite edge counts as 1. *)
Theorem one_bit_apart_adjacent (variables : list string) (i j : nat) :
  length variables ∈ [2; 3; 4] →
  i < 2 ^ length variables → j < 2 ^ length variables →
  hamming_distance (length variables) i j = 1 →
  grid_distance (grid_dims (length variables))
    (cell_of variables i) (cell_of variables j) = 1.
Proof. intros Hlen Hi Hj Hham. by apply cell_of_adjacent. Qed.

Lemma one_bit_apart_adjacent_witness :
  grid_distance (grid_dims (length ["a"; "b"; "c"; "d"]))
    (cell_of ["a"; "b"; "c"; "d"] 0) (cell_of ["a"; "b"; "c"; "d"] 8) = 1.
Proof.
  apply (one_bit_apart_adjacent ["a"; "b"; "c"; "d"] 0 8).
  - simpl. right. right. left.
  - simpl. lia.
  - simpl. lia.
  - vm_compute. reflexivity.
Defined.

Example wraparound_cells :
  cell_of ["a"; "b"; "c"; "d"] 0 = (0, 0) ∧ cell_of ["a"; "b"; "c"; "d"] 8 = (3, 0).
Proof. by vm_compute. Qed.

(** Claim C6, as amended.  For 2, 3 or 4 variables, the cell of an index
    that is both in the on-set and in the don't-care set passed to
    [generate_kmap] is set to "X": the don't-care entry replaces the
    on-set entry. *)
Theorem dontcare_takes_precedence (variables : list string) (minterms dontcares : list Z)
    (output_name : string) (i : nat) :
  length variables ∈ [2; 3; 4] → i < 2 ^ length variables →
  Z.of_nat i ∈ minterms → Z.of_nat i ∈ dontcares →
  ∃ k, generate_kmap variables minterms dontcares output_name = Some k
       ∧ grid_cell (Kmap.map k) (cell_of variables i) = Some "X".
Proof.
  intros Hlen Hi Hon Hdc.
  destruct (generate_kmap_cells variables Hlen minterms dontcares output_name)
    as (k & Hk & _ & Hcells).
  exists k. split; [done|]. rewrite Hcells by done.
  by rewrite all_terms_lookup, decide_True.
Qed.

Lemma dontcare_takes_precedence_witness :
  ∃ k, generate_kmap ["a"; "b"] [0%Z; 1%Z] [1%Z] "f" = Some k
       ∧ grid_cell (Kmap.map k) (cell_of ["a"; "b"] 1) = Some "X".
Proof.
  apply (dontcare_takes_precedence ["a"; "b"] [0%Z; 1%Z] [1%Z] "f" 1).
  - simpl. left.
  - simpl. lia.
  - simpl. right. left.
  - simpl. left.
Defined.

(** Claim C6, counterexample.  With variables a, b and index 0 both in the
    on-set and in the don't-care set, the cell of index 0 holds "X", not
    "1". *)
Lemma on_set_does_not_take_precedence :
  let variables := ["a"; "b"] in
  let minterms := [0%Z] in
  let dontcares := [0%Z] in
  0%Z ∈ minterms ∧ 0%Z ∈ dontcares
  ∧ cell_of variables 0 = (0, 0)
  ∧ Kmap.map <$> generate_kmap variables minterms dontcares "f"
    = Some [["X"; "0"]; ["0"; "0"]]
  ∧ (k ← generate_kmap variables minterms dontcares "f";
     grid_cell (Kmap.map k) (cell_of variables 0)) ≠ Some "1".
Proof.
  simpl. split; [left|]. split; [left|]. vm_compute. repeat split. discriminate.
Qed.

(** ** The handler *)

Lemma replace_tilde_True var new : Py.replace ("~" +:+ var) new "True" = "True".
Proof. reflexivity. Qed.

(** SymPy's [true] is not the Python constant: it is printed. *)
Lemma format_sympy_true var_names form_type :
  format_sympy_expr (Sympy BooleanTrue) var_names form_type = "True".
Proof.
  unfold format_sympy_expr.
  assert (∀ l, foldl (λ expr_str var, Py.replace ("~" +:+ var) (var +:+ "'") expr_str)
                 "True" l = "True") as ->.
  { induction l as [|v l IH]; [done|]. cbn [foldl]. by rewrite replace_tilde_True. }
  by destruct (String.eqb form_type "SOP").
Qed.

Lemma sorted_nil_iff (l : list nat) : Py.sorted l = [] ↔ l = [].
Proof.
  unfold Py.sorted. split; [|by intros ->].
  intros Hnil. apply Permutation_nil_r. rewrite <- Hnil.
  symmetry. apply merge_sort_Permutation.
Qed.

Lemma explain_groups_from groups terms_to_group term_name variables form_type :
  ∀ acc,
  foldl
    (λ explanations group,
       match relevant_terms_of terms_to_group group with
       | [] => explanations
       | relevant_terms =>
           explanations ++
             [explanation_text term_name relevant_terms
                (group_to_term group variables form_type)]
       end) acc groups
  = acc ++ omap (λ group,
            match filter (λ m, Z.of_nat m ∈ terms_to_group) group with
            | [] => None
            | relevant =>
                Some (explanation_text term_name (Py.sorted relevant)
                        (group_to_term group variables form_type))
            end) groups.
Proof.
  induction groups as [|g groups IH]; intros acc; csimpl.
  - by rewrite app_nil_r.
  - rewrite IH. unfold relevant_terms_of.
    destruct (filter _ g) as [|m rel] eqn:Hrel; [done|].
    destruct (Py.sorted (m :: rel)) eqn:Hs.
    + apply (proj1 (sorted_nil_iff _)) in Hs. discriminate.
    + by rewrite <- app_assoc.
Qed.

Lemma explain_groups_spec groups terms_to_group term_name variables form_type :
  explain_groups groups terms_to_group term_name variables form_type
  = omap (λ group,
            match filter (λ m, Z.of_nat m ∈ terms_to_group) group with
            | [] => None
            | relevant =>
                Some (explanation_text term_name (Py.sorted relevant)
                        (group_to_term group variables form_type))
            end) groups.
Proof. apply explain_groups_from. Qed.

Lemma update_kmap_data_Some k groups explanations form_type :
  update_kmap_data (Some k) groups explanations form_type
  = inr {| Response.kmap := k; Response.groups := groups;
           Response.explanations := explanations; Response.form_type := form_type |}.
Proof. reflexivity. Qed.

Lemma supported_not_nil (var_names : list string) :
  length var_names ∈ [2; 3; 4] → var_names ≠ [].
Proof.
  intros Hlen ->. simpl in Hlen.
  repeat (apply elem_of_cons in Hlen as [Hlen|Hlen]; [lia|]).
  by apply elem_of_nil in Hlen.
Qed.

Lemma empty_grid_all_zero (variables : list string) :
  length variables ∈ [2; 3; 4] →
  fill_kmap variables (all_terms_of [] [])
    (replicate (grid_dims (length variables)).1
       (replicate (grid_dims (length variables)).2 "0"))
  = replicate (grid_dims (length variables)).1
      (replicate (grid_dims (length variables)).2 "0").
Proof.
  intros Hlen.
  destruct (supported_lengths variables Hlen)
    as [(a & b & ->)|[(a & b & c & ->)|(a & b & c & d & ->)]];
    vm_compute; reflexivity.
Qed.

(** Claim C8.  For 2, 3 or 4 variable names, a request with an empty
    on-set and an empty don't-care set is answered with the solution "0",
    no groups, no explanations and a grid whose every cell is "0". *)
Theorem empty_request_zero_function (mz : minimizer) (req : Request.t) :
  length (Request.var_names req) ∈ [2; 3; 4] →
  Request.minterms req = [] → Request.dontcares req = [] →
  ∃ k, solve_kmap mz req
       = Response.Solution "0"
           {| Response.kmap := k; Response.groups := [];
              Response.explanations := [];
              Response.form_type := Request.form_type req |}
       ∧ Kmap.map k
         = replicate (grid_dims (length (Request.var_names req))).1
             (replicate (grid_dims (length (Request.var_names req))).2 "0").
Proof.
  destruct req as [var_names output_name minterms dontcares form_type]. simpl.
  intros Hlen -> ->.
  unfold solve_kmap, solve_body. simpl.
  rewrite orb_true_r.
  assert (match var_names with [] => ["a"; "b"; "c"; "d"] | _ => var_names end = var_names)
    as ->.
  { pose proof (supported_not_nil _ Hlen). by destruct var_names. }
  unfold generate_kmap. rewrite bool_decide_eq_true_2 by done. simpl.
  destruct (grid_dims (length var_names)) as [rows cols] eqn:Hdims.
  eexists. split; [reflexivity|]. simpl.
  pose proof (empty_grid_all_zero var_names Hlen) as Hgrid.
  by rewrite Hdims in Hgrid.
Qed.

Lemma empty_request_zero_function_witness :
  ∃ k, solve_kmap (constant_minimizer BooleanFalse)
         {| Request.var_names := ["a"; "b"; "c"]; Request.output_name := "f";
            Request.minterms := []; Request.dontcares := [];
            Request.form_type := "SOP" |}
       = Response.Solution "0"
           {| Response.kmap := k; Response.groups := [];
              Response.explanations := []; Response.form_type := "SOP" |}
       ∧ Kmap.map k = [["0"; "0"; "0"; "0"]; ["0"; "0"; "0"; "0"]].
Proof.
  apply (empty_request_zero_function (constant_minimizer BooleanFalse)
           {| Request.var_names := ["a"; "b"; "c"]; Request.output_name := "f";
              Request.minterms := []; Request.dontcares := [];
              Request.form_type := "SOP" |}).
  - simpl. right. left.
  - reflexivity.
  - reflexivity.
Defined.

(** Claim C7, as amended.  A request with a non-empty list of variable
    names whose length is not 2, 3 or 4, and with a non-empty on-set or
    don't-care set, is answered with status 400 and the message made of
    the supplied count followed by " variables not supported (2-4
    only).". *)
Theorem unsupported_count_rejected (mz : minimizer) (req : Request.t) :
  Request.var_names req ≠ [] →
  length (Request.var_names req) ∉ [2; 3; 4] →
  Request.minterms req ≠ [] ∨ Request.dontcares req ≠ [] →
  solve_kmap mz req
  = Response.Error
      (pretty (length (Request.var_names req)) +:+ " variables not supported (2-4 only).")
      400.
Proof.
  destruct req as [var_names output_name minterms dontcares form_type]. simpl.
  intros Hne Hlen Hsets.
  unfold solve_kmap, solve_body. simpl.
  rewrite (bool_decide_eq_false_2 (var_names = [])) by done.
  assert (bool_decide (minterms = []) && bool_decide (dontcares = []) = false) as ->.
  { destruct Hsets as [H|H]; rewrite (bool_decide_eq_false_2 _ H);
      [done|apply andb_false_r]. }
  simpl. by rewrite bool_decide_eq_false_2.
Qed.

Lemma unsupported_count_rejected_witness :
  solve_kmap (constant_minimizer BooleanFalse)
    {| Request.var_names := ["a"; "b"; "c"; "d"; "e"]; Request.output_name := "f";
       Request.minterms := [1%Z]; Request.dontcares := [];
       Request.form_type := "SOP" |}
  = Response.Error "5 variables not supported (2-4 only)." 400.
Proof.
  apply (unsupported_count_rejected (constant_minimizer BooleanFalse)
           {| Request.var_names := ["a"; "b"; "c"; "d"; "e"]; Request.output_name := "f";
              Request.minterms := [1%Z]; Request.dontcares := [];
              Request.form_type := "SOP" |}).
  - discriminate.
  - simpl. intros Hin.
    repeat (apply elem_of_cons in Hin as [Hin|Hin]; [lia|]).
    by apply elem_of_nil in Hin.
  - left. discriminate.
Defined.

(** Claim C7, counterexample.  A request with no variable names (a length
    outside 2 to 4) is not rejected: the handler falls back to the
    variables a, b, c, d and answers with the zero function. *)
Lemma empty_variable_list_is_not_rejected :
  let req := {| Request.var_names := []; Request.output_name := "f";
                Request.minterms := [1%Z]; Request.dontcares := [];
                Request.form_type := "SOP" |} in
  (length (Request.var_names req) ∉ [2; 3; 4])
  ∧ solve_kmap (constant_minimizer BooleanFalse) req
    = Response.Solution "0"
        {| Response.kmap :=
             {| Kmap.map := replicate 4 (replicate 4 "0");
                Kmap.row_labels := ["00"; "01"; "11"; "10"];
                Kmap.col_labels := ["00"; "01"; "11"; "10"];
                Kmap.row_vars := "a,b"; Kmap.col_vars := "c,d";
                Kmap.output_name := "f" |};
           Response.groups := []; Response.explanations := [];
           Response.form_type := "SOP" |}.
Proof.
  split.
  - simpl. intros Hin.
    repeat (apply elem_of_cons in Hin as [Hin|Hin]; [lia|]).
    by apply elem_of_nil in Hin.
  - vm_compute. reflexivity.
Qed.

Lemma explanation_of_spec req group :
  explanation_of req group
  = match filter (λ m, Z.of_nat m ∈ relevant_set req) group with
    | [] => None
    | relevant =>
        Some (explanation_text (term_name_of (Request.form_type req))
                (Py.sorted relevant)
                (group_to_term group (symbols (Request.var_names req))
                   (Request.form_type req)))
    end.
Proof. unfold explanation_of. by destruct (filter _ group). Qed.

(** The groups and the explanations of any successful response. *)
Lemma solve_body_explanations mz req solution kd :
  solve_body mz req = inr (Response.Solution solution kd) →
  Response.explanations kd = omap (explanation_of req) (Response.groups kd).
Proof.
  destruct req as [var_names output_name minterms dontcares form_type].
  unfold solve_body. cbn [Request.var_names Request.output_name Request.minterms
                          Request.dontcares Request.form_type].
  destruct (_ || _).
  { destruct (generate_kmap _ _ _ _) as [k|]; [|done]. simpl. by intros [= <- <-]. }
  destruct (negb _); [done|].
  destruct (generate_kmap var_names minterms dontcares output_name) as [k|] eqn:Hk.
  2:{ destruct (String.eqb form_type "SOP");
        repeat (destruct (SOPform _ _ _ _) || destruct (POSform _ _ _ _)); done. }
  destruct (String.eqb form_type "SOP") eqn:Hft.
  - destruct (SOPform mz _ _ _) as [err|minimized_expr]; [done|].
    simpl. intros [= <- <-]. simpl.
    rewrite explain_groups_spec. apply omap_ext_in. intros g _.
    rewrite explanation_of_spec. unfold relevant_set, term_name_of. simpl.
    by rewrite Hft.
  - destruct (POSform mz _ _ _) as [err|minimized_expr]; [done|]. simpl.
    destruct (SOPform mz _ _ _) as [err|sop_of_zeros_expr]; [done|].
    simpl. intros [= <- <-]. simpl.
    rewrite explain_groups_spec, symbols_length. apply omap_ext_in. intros g _.
    rewrite explanation_of_spec. unfold relevant_set, term_name_of. simpl.
    by rewrite Hft.
Qed.

Lemma solve_kmap_Solution mz req solution kd :
  solve_kmap mz req = Response.Solution solution kd →
  solve_body mz req = inr (Response.Solution solution kd).
Proof. unfold solve_kmap. destruct (solve_body mz req); [done|]. by intros ->. Qed.

(** Claim C4, evaluated on the code.  When the minimiser answers an SOP
    request with SymPy's [true], the groups list is empty, but the
    solution string is "True": [format_sympy_expr] tests identity with
    the Python constant, which SymPy's [true] is not, and prints the
    expression.  The Python constant itself would be rendered "1". *)
Theorem true_constant_solution (mz : minimizer) (req : Request.t) :
  length (Request.var_names req) ∈ [2; 3; 4] →
  Request.minterms req ≠ [] ∨ Request.dontcares req ≠ [] →
  Request.form_type req = "SOP" →
  SOPform mz (symbols (Request.var_names req)) (Request.minterms req)
    (Request.dontcares req) = inr BooleanTrue →
  ∃ kd, solve_kmap mz req = Response.Solution "True" kd
        ∧ Response.groups kd = []
        ∧ format_sympy_expr (PyBool true) (Request.var_names req) "SOP" = "1".
Proof.
  destruct req as [var_names output_name minterms dontcares form_type]. simpl.
  intros Hlen Hsets -> Hmin.
  unfold solve_kmap, solve_body. cbn -[format_sympy_expr symbols generate_kmap].
  rewrite (bool_decide_eq_false_2 (var_names = [])) by (by apply supported_not_nil).
  assert (bool_decide (minterms = []) && bool_decide (dontcares = []) = false) as ->.
  { destruct Hsets as [H|H]; rewrite (bool_decide_eq_false_2 _ H);
      [done|apply andb_false_r]. }
  cbn -[format_sympy_expr symbols generate_kmap]. rewrite bool_decide_eq_true_2 by done.
  cbn -[format_sympy_expr symbols generate_kmap]. rewrite Hmin.
  destruct (generate_kmap_cells var_names Hlen minterms dontcares output_name)
    as (k & -> & _).
  cbn -[format_sympy_expr symbols generate_kmap]. rewrite format_sympy_true.
  eexists. split; [reflexivity|]. done.
Qed.

Lemma true_constant_solution_witness :
  ∃ kd, solve_kmap (constant_minimizer BooleanTrue)
          {| Request.var_names := ["a"; "b"; "c"]; Request.output_name := "f";
             Request.minterms := [0; 1; 2; 3; 4; 5; 6; 7]%Z; Request.dontcares := [];
             Request.form_type := "SOP" |}
        = Response.Solution "True" kd
        ∧ Response.groups kd = []
        ∧ format_sympy_expr (PyBool true) ["a"; "b"; "c"] "SOP" = "1".
Proof.
  apply (true_constant_solution (constant_minimizer BooleanTrue)
           {| Request.var_names := ["a"; "b"; "c"]; Request.output_name := "f";
              Request.minterms := [0; 1; 2; 3; 4; 5; 6; 7]%Z; Request.dontcares := [];
              Request.form_type := "SOP" |}).
  - simpl. right. left.
  - left. discriminate.
  - reflexivity.
  - reflexivity.
Defined.

(** ** Shape and size of an expansion *)

Lemma seq_double m : seq 0 (2 * S m) = seq 0 (2 * m) ++ [2 * m; 2 * m + 1].
Proof.
  replace (2 * S m) with (2 * m + 2) by lia.
  rewrite seq_app. simpl. by rewrite Nat.add_1_r.
Qed.

Lemma div2_double_plus m b : Nat.div2 (2 * m + Nat.b2n b) = m.
Proof.
  destruct b; simpl Nat.b2n.
  - rewrite Nat.add_1_r. apply Nat.div2_succ_double.
  - rewrite Nat.add_0_r. apply Nat.div2_double.
Qed.

Lemma odd_double_plus m b : Nat.odd (2 * m + Nat.b2n b) = b.
Proof.
  rewrite Nat.odd_add, Nat.odd_mul. simpl. by destruct b.
Qed.

(** Filtering the pairs [2i, 2i+1] by a test on the half and a test on the
    parity. *)
Lemma count_halves (Q : nat → bool) (H : bool → bool) m :
  length (filter (λ i, Q (Nat.div2 i) && H (Nat.odd i)) (seq 0 (2 * m)))
  = length (filter (λ i, Q i) (seq 0 m)) * (Nat.b2n (H false) + Nat.b2n (H true)).
Proof.
  induction m as [|m IH]; [done|].
  rewrite seq_double, seq_S, !filter_app, !length_app, IH. change (0 + m) with m.
  rewrite !filter_cons, !filter_nil.
  pose proof (div2_double_plus m false) as Hd0. pose proof (div2_double_plus m true) as Hd1.
  pose proof (odd_double_plus m false) as Ho0. pose proof (odd_double_plus m true) as Ho1.
  simpl Nat.b2n in *. rewrite Nat.add_0_r in Hd0, Ho0.
  rewrite Hd0, Hd1, Ho0, Ho1.
  destruct (Q m), (H false), (H true); simpl; lia.
Qed.

Lemma count_bits_ok cs :
  length (filter (λ i, bits_ok cs i) (seq 0 (2 ^ length cs)))
  = 2 ^ length (filter (λ c, c = None) cs).
Proof.
  induction cs as [|c cs IH]; [done|].
  cbn [length bits_ok]. rewrite Nat.pow_succ_r'.
  rewrite (filter_ext_in _
             (λ i, Is_true (bits_ok cs (Nat.div2 i)
                            && match c with
                               | Some b => Bool.eqb (Nat.odd i) b
                               | None => true
                               end))).
  2:{ intros i _. by rewrite andb_comm. }
  rewrite (count_halves (bits_ok cs)
             (λ o, match c with Some b => Bool.eqb o b | None => true end)), IH.
  rewrite filter_cons.
  destruct c as [[]|];
    [rewrite decide_False by done|rewrite decide_False by done|rewrite decide_True by done];
    simpl; lia.
Qed.

Lemma bits_ok_spec cs : ∀ i,
  bits_ok cs i = true ↔ ∀ k b, cs !! k = Some (Some b) → Nat.testbit i k = b.
Proof.
  induction cs as [|c cs IH]; intros i; simpl.
  - split; [|done]. intros _ k b Hk. by rewrite lookup_nil in Hk.
  - rewrite andb_true_iff, IH. split.
    + intros [Hc Hcs] [|k] b Hk; simpl in Hk.
      * injection Hk as ->. simpl. by apply Bool.eqb_prop.
      * by apply Hcs.
    + intros Hall. split.
      * destruct c as [b|]; [|done].
        pose proof (Hall 0 b eq_refl) as H0. simpl in H0. rewrite H0. by destruct b.
      * intros k b Hk. by apply (Hall (S k)).
Qed.

Lemma constraint_of_Some lits x b :
  consistent lits → constraint_of lits x = Some b ↔ (sstr x, b) ∈ lits.
Proof.
  intros Hcons. unfold constraint_of. split.
  - destruct (list_find _ lits) as [[k [v p]]|] eqn:Hfind; [|done].
    simpl. intros [= <-].
    apply list_find_Some in Hfind as (Hk & Hv & _). simpl in Hv. subst v.
    by eapply list_elem_of_lookup_2.
  - intros Hin.
    destruct (list_find (λ l, l.1 = sstr x) lits) as [[k [v p]]|] eqn:Hfind.
    + simpl. apply list_find_Some in Hfind as (Hk & Hv & _). simpl in Hv. subst v.
      f_equal. apply (Hcons (sstr x)); [|done]. by eapply list_elem_of_lookup_2.
    + apply list_find_None in Hfind. rewrite Forall_forall in Hfind.
      by destruct (Hfind _ Hin).
Qed.

Lemma constraint_of_None lits x :
  constraint_of lits x = None ↔ sstr x ∉ lits.*1.
Proof.
  unfold constraint_of. split.
  - destruct (list_find _ lits) as [[k [v p]]|] eqn:Hfind; [done|]. intros _.
    apply list_find_None in Hfind. rewrite Forall_forall in Hfind.
    intros Hin. apply list_elem_of_fmap in Hin as ([v p] & Hv & Hin). simpl in Hv.
    apply (Hfind _ Hin). by simpl.
  - intros Hnin.
    destruct (list_find (λ l, l.1 = sstr x) lits) as [[k [v p]]|] eqn:Hfind; [|done].
    apply list_find_Some in Hfind as (Hk & Hv & _). simpl in Hv. subst v.
    exfalso. apply Hnin, list_elem_of_fmap. exists (sstr x, p).
    split; [done|]. by eapply list_elem_of_lookup_2.
Qed.

(** Agreement with the literals, bit by bit from the least significant. *)
Lemma matches_literals_bits_ok lits variables i :
  consistent lits →
  matches_literals lits variables i
  = bits_ok (reverse (constraint_of lits <$> variables)) i.
Proof.
  intros Hcons. apply eq_true_iff_eq.
  rewrite matches_literals_spec, bits_ok_spec. unfold bit_at.
  split.
  - intros Hall k b Hk.
    assert (k < length variables) as Hlt.
    { apply lookup_lt_Some in Hk. by rewrite length_reverse, length_fmap in Hk. }
    rewrite reverse_lookup in Hk by (rewrite length_fmap; lia).
    rewrite length_fmap, list_lookup_fmap in Hk.
    destruct (variables !! _) as [x|] eqn:Hx; [|done]. simpl in Hk.
    injection Hk as Hk. apply (constraint_of_Some _ _ _ Hcons) in Hk.
    rewrite <- (Hall _ _ _ Hx Hk). f_equal. lia.
  - intros Hall j x p Hj Hp.
    assert (j < length variables) as Hlt by (by eapply lookup_lt_Some).
    apply Hall. rewrite reverse_lookup by (rewrite length_fmap; lia).
    rewrite length_fmap, list_lookup_fmap.
    replace (length variables - S (length variables - 1 - j)) with j by lia.
    rewrite Hj. simpl. f_equal. by apply constraint_of_Some.
Qed.

Lemma length_filter_reverse {A} (P : A → Prop) `{∀ x, Decision (P x)} (l : list A) :
  length (filter P (reverse l)) = length (filter P l).
Proof.
  induction l as [|x l IH]; [done|]. rewrite reverse_cons.
  rewrite filter_app, length_app, IH, !filter_cons, filter_nil.
  destruct (decide (P x)); simpl; lia.
Qed.

Lemma length_filter_fmap {A B} (f : A → B) (P : B → Prop) `{∀ y, Decision (P y)}
    (l : list A) :
  length (filter P (f <$> l)) = length (filter (λ x, P (f x)) l).
Proof.
  induction l as [|x l IH]; [done|]. csimpl.
  rewrite !filter_cons. destruct (decide (P (f x))); simpl; by rewrite IH.
Qed.

(** Extra X2.  The expansion of a term of consistent literals has exactly
    [2^f] members, where [f] is the number of listed variables that no
    literal names: a group is never empty and its size is a power of
    two. *)
Theorem expansion_size (term : expr) (variables : list expr)
    (lits : list (string * bool)) :
  term_literals term = Some lits → consistent lits →
  length (get_minterms_for_term term variables)
  = 2 ^ length (free_variables lits variables).
Proof.
  intros Hlits Hcons.
  rewrite (get_minterms_for_term_filter _ _ _ Hlits Hcons).
  rewrite (filter_ext_in _
             (λ i, Is_true (bits_ok (reverse (constraint_of lits <$> variables)) i))).
  2:{ intros i _. by rewrite matches_literals_bits_ok. }
  replace (length variables)
    with (length (reverse (constraint_of lits <$> variables)))
    by (by rewrite length_reverse, length_fmap).
  rewrite count_bits_ok, length_filter_reverse, length_filter_fmap. f_equal.
  unfold free_variables. f_equal. apply filter_ext_in. intros x _.
  apply constraint_of_None.
Qed.

Lemma expansion_size_witness :
  length (get_minterms_for_term (And [Symbol "a"; Not (Symbol "b")])
            (symbols ["a"; "b"; "c"; "d"]))
  = 2 ^ length (free_variables [("a", true); ("b", false)]
                  (symbols ["a"; "b"; "c"; "d"])).
Proof.
  apply (expansion_size (And [Symbol "a"; Not (Symbol "b")])
           (symbols ["a"; "b"; "c"; "d"]) [("a", true); ("b", false)]).
  - reflexivity.
  - exact consistent_example.
Defined.

Lemma sublist_StronglySorted {A} (R : relation A) (l1 l2 : list A) :
  sublist l1 l2 → StronglySorted R l2 → StronglySorted R l1.
Proof.
  induction 1 as [|x l1 l2 Hsub IH|x l1 l2 Hsub IH]; intros Hs; [done| |].
  - apply StronglySorted_inv in Hs as [Hs Hx]. constructor; [by apply IH|].
    apply Forall_forall. intros y Hy. rewrite Forall_forall in Hx.
    by eapply Hx, elem_of_sublist.
  - apply StronglySorted_inv in Hs as [Hs _]. by apply IH.
Qed.

Lemma StronglySorted_seq a n : StronglySorted lt (seq a n).
Proof.
  revert a. induction n as [|n IH]; intros a; simpl; [constructor|].
  constructor; [apply IH|]. apply Forall_forall. intros x Hx.
  apply elem_of_seq in Hx. lia.
Qed.

Lemma get_minterms_for_term_sublist term variables :
  sublist (get_minterms_for_term term variables) (seq 0 (2 ^ length variables)).
Proof.
  unfold get_minterms_for_term, Py.range. rewrite foldl_snoc_if. simpl.
  apply sublist_filter.
Qed.

(** Extra X1.  Whatever the term, [get_minterms_for_term] returns a
    sublist of [0, 1, ..., 2^n - 1]: strictly increasing, without
    duplicates, every member below [2^n]. *)
Theorem expansion_sorted_in_range (term : expr) (variables : list expr) :
  sublist (get_minterms_for_term term variables) (seq 0 (2 ^ length variables))
  ∧ StronglySorted lt (get_minterms_for_term term variables)
  ∧ NoDup (get_minterms_for_term term variables)
  ∧ Forall (λ i, i < 2 ^ length variables) (get_minterms_for_term term variables).
Proof.
  pose proof (get_minterms_for_term_sublist term variables) as Hsub.
  split; [done|]. split; [|split].
  - apply (sublist_StronglySorted _ _ _ Hsub), StronglySorted_seq.
  - eapply sublist_NoDup; [apply NoDup_seq|done].
  - apply Forall_forall. intros i Hi.
    apply (λ H, elem_of_sublist _ _ _ H Hsub), elem_of_seq in Hi. lia.
Qed.

(** ** Groups and truth values *)

Lemma eval_literals ρ args lits :
  Forall2 (λ a l, literal_of a = Some l) args lits →
  forallb (eval ρ) args = true ↔ ∀ v p, (v, p) ∈ lits → ρ v = p.
Proof.
  induction 1 as [|a [u q] args lits Ha _ IH]; simpl.
  - split; [|done]. intros _ v p Hin. by apply elem_of_nil in Hin.
  - rewrite andb_true_iff, IH.
    assert (eval ρ a = true ↔ ρ u = q) as ->.
    { destruct a as [name| | |[]| |]; simplify_eq/=; [done|].
      rewrite negb_true_iff. done. }
    split.
    + intros [Hu Hrest] v p Hin. apply elem_of_cons in Hin as [[= -> ->]|Hin]; auto.
    + intros Hall. split; [apply Hall; left|]. intros v p Hin. apply Hall. by right.
Qed.

Lemma eval_product_term ρ t lits :
  term_literals t = Some lits → (∀ args, t ≠ Or args) →
  eval ρ t = true ↔ ∀ v p, (v, p) ∈ lits → ρ v = p.
Proof.
  intros Hlits Hnor. unfold term_literals in Hlits. apply mapM_Some in Hlits.
  destruct t as [name| | |a|args|args]; simpl in Hlits.
  - rewrite <- (eval_literals ρ _ _ Hlits). simpl. by rewrite andb_true_r.
  - inversion Hlits; simplify_eq/=.
  - inversion Hlits; simplify_eq/=.
  - rewrite <- (eval_literals ρ _ _ Hlits). simpl. by rewrite andb_true_r.
  - by apply eval_literals.
  - by destruct (Hnor args).
Qed.

Lemma assignment_lookup var_names i j v :
  NoDup var_names → var_names !! j = Some v →
  assignment var_names i v = bit_at (length var_names) i j.
Proof.
  intros Hnd Hj. unfold assignment.
  destruct (list_find (λ w, w = v) var_names) as [[j' w]|] eqn:Hfind.
  - apply list_find_Some in Hfind as (Hj' & -> & _).
    by rewrite (NoDup_lookup _ _ _ _ Hnd Hj' Hj).
  - apply list_find_None in Hfind. rewrite Forall_forall in Hfind.
    destruct (Hfind v); [by eapply list_elem_of_lookup_2|done].
Qed.

(** A product term is true under the assignment of exactly the indices of
    its expansion. *)
Lemma product_term_expansion var_names t i :
  NoDup var_names → product_term var_names t → i < 2 ^ length var_names →
  i ∈ get_minterms_for_term t (symbols var_names)
  ↔ eval (assignment var_names i) t = true.
Proof.
  intros Hnd (lits & Hlits & Hnor & Hcons & Hnamed) Hi.
  rewrite (get_minterms_for_term_filter _ _ _ Hlits Hcons).
  rewrite list_elem_of_filter, Is_true_true, matches_literals_spec, elem_of_seq.
  rewrite (eval_product_term _ _ _ Hlits Hnor), symbols_length.
  split.
  - intros [Hall _] v p Hin.
    destruct (proj1 (list_elem_of_lookup _ _) (Hnamed _ _ Hin)) as [j Hj].
    rewrite (assignment_lookup _ _ _ _ Hnd Hj).
    apply (Hall j (Symbol v)); [by rewrite symbols_lookup, Hj|done].
  - intros Hall. split; [|lia]. intros j x p Hj Hin.
    rewrite symbols_lookup in Hj.
    destruct (var_names !! j) as [v|] eqn:Hv; simplify_eq/=.
    rewrite <- (assignment_lookup _ _ _ _ Hnd Hv). by apply Hall.
Qed.

(** Extra X3.  For distinct variable names and an expression that is a
    sum of product terms over them (or a single such term), an index
    below [2^n] lies in one of the groups of [get_implicant_groups]
    exactly when the expression is true under the assignment the index
    stands for. *)
Theorem groups_cover_truth_set (var_names : list string) (e : expr) (i : nat) :
  NoDup var_names →
  Forall (product_term var_names) (sum_terms e) →
  i < 2 ^ length var_names →
  (∃ group, group ∈ get_implicant_groups (Sympy e) (symbols var_names) ∧ i ∈ group)
  ↔ eval (assignment var_names i) e = true.
Proof.
  intros Hnd Hterms Hi.
  assert (get_implicant_groups (Sympy e) (symbols var_names)
          = (λ t, get_minterms_for_term t (symbols var_names)) <$> sum_terms e) as ->.
  { destruct e; try done; simpl in Hterms;
      apply Forall_cons_1 in Hterms as [(lits & Hlits & _) _];
      unfold term_literals in Hlits; by simpl in Hlits. }
  assert (eval (assignment var_names i) e
          = existsb (eval (assignment var_names i)) (sum_terms e)) as ->.
  { destruct e; simpl; by rewrite ?orb_false_r. }
  rewrite existsb_exists. rewrite Forall_forall in Hterms. split.
  - intros (group & Hgroup & Hin).
    apply list_elem_of_fmap in Hgroup as (t & -> & Ht).
    exists t. split; [by apply list_elem_of_In|].
    by apply (product_term_expansion var_names t i Hnd (Hterms _ Ht) Hi).
  - intros (t & Ht & Heval). apply list_elem_of_In in Ht.
    exists (get_minterms_for_term t (symbols var_names)). split.
    + apply list_elem_of_fmap. by exists t.
    + by apply (product_term_expansion var_names t i Hnd (Hterms _ Ht) Hi).
Qed.

Lemma product_term_example_1 : product_term ["a"; "b"; "c"] (And [Symbol "a"; Not (Symbol "b")]).
Proof.
  exists [("a", true); ("b", false)]. split; [done|]. split; [done|].
  split; [exact consistent_example|].
  intros v p Hin.
  apply elem_of_cons in Hin as [[= -> _]|Hin]; [left|].
  apply list_elem_of_singleton in Hin as [= -> _]. right. left.
Qed.

Lemma product_term_example_2 : product_term ["a"; "b"; "c"] (Symbol "c").
Proof.
  exists [("c", true)]. split; [done|]. split; [done|].
  split; [apply consistent_singleton|].
  intros v p Hin. apply list_elem_of_singleton in Hin as [= -> _].
  right. right. left.
Qed.

Lemma groups_cover_truth_set_witness :
  (∃ group,
     group ∈ get_implicant_groups
               (Sympy (Or [And [Symbol "a"; Not (Symbol "b")]; Symbol "c"]))
               (symbols ["a"; "b"; "c"])
     ∧ 4 ∈ group)
  ↔ eval (assignment ["a"; "b"; "c"] 4)
      (Or [And [Symbol "a"; Not (Symbol "b")]; Symbol "c"]) = true.
Proof.
  apply (groups_cover_truth_set ["a"; "b"; "c"]
           (Or [And [Symbol "a"; Not (Symbol "b")]; Symbol "c"]) 4).
  - refine (bool_decide_unpack (NoDup ["a"; "b"; "c"]) _). vm_compute. exact I.
  - repeat constructor; [exact product_term_example_1|exact product_term_example_2].
  - simpl. lia.
Defined.

(** ** Edge cases of [group_to_term] *)

Lemma forallb_false_elem {A} (f : A → bool) (l : list A) x :
  x ∈ l → f x = false → forallb f l = false.
Proof.
  intros Hin Hx. destruct (forallb f l) eqn:Hall; [|done].
  rewrite forallb_forall in Hall. rewrite <- Hx. symmetry. apply Hall.
  by apply list_elem_of_In.
Qed.

(** The test of the loop body, for any form type: the position yields a
    part exactly when the bit is constant across the group. *)
Lemma term_part_is_Some variables group form_type j :
  group ≠ [] → Forall (λ i, i < 2 ^ length variables) group → j < length variables →
  term_part (map (Py.format_bin (length variables)) group) variables form_type j
  = b ← constant_bit (length variables) group j;
    Some (if (String.eqb form_type "SOP" && b) || (String.eqb form_type "POS" && negb b)
          then var_str variables j
          else var_str variables j +:+ "'").
Proof.
  intros Hne Hrange Hj. unfold term_part, constant_bit.
  destruct group as [|m0 group]; [done|]. clear Hne.
  cbn [map hd].
  assert (m0 < 2 ^ length variables) as Hm0 by (by inversion Hrange).
  rewrite (format_bin_char _ _ _ Hm0 Hj).
  rewrite <- (map_cons (Py.format_bin (length variables))), forallb_map.
  rewrite (forallb_ext_in _ (λ m', Bool.eqb (bit_at (length variables) m' j)
                                     (bit_at (length variables) m0 j))).
  2:{ intros i Hi. rewrite Forall_forall in Hrange.
      rewrite format_bin_char by auto. apply digit_eqb. }
  destruct (forallb _ (m0 :: group)); [|done]. simpl.
  by destruct (bit_at (length variables) m0 j).
Qed.

Lemma term_parts_omap variables group form_type :
  term_parts group variables form_type
  = omap (term_part (map (Py.format_bin (length variables)) group) variables form_type)
      (seq 0 (length variables)).
Proof. unfold term_parts, Py.range. by rewrite foldl_snoc_omap. Qed.

Lemma pow2_pos n : 0 < 2 ^ n.
Proof. apply Nat.neq_0_lt_0, Nat.pow_nonzero. lia. Qed.

(** No bit is constant across the whole table. *)
Lemma constant_bit_full n j : j < n → constant_bit n (seq 0 (2 ^ n)) j = None.
Proof.
  intros Hj. unfold constant_bit.
  destruct (seq 0 (2 ^ n)) as [|m0 rest] eqn:Hseq.
  { pose proof (pow2_pos n). destruct (2 ^ n); [lia|done]. }
  assert (m0 = 0) as ->.
  { destruct (2 ^ n); simpl in Hseq; congruence. }
  rewrite <- Hseq.
  rewrite (forallb_false_elem _ _ (2 ^ (n - 1 - j))); [done| |].
  - apply elem_of_seq. split; [lia|]. simpl. apply Nat.pow_lt_mono_r; lia.
  - unfold bit_at. by rewrite Nat.pow2_bits_true, Nat.bits_0.
Qed.

(** Extra X4.  The group of all [2^n] indices is displayed as "1", for
    every variable list and every form type. *)
Theorem full_table_is_one (variables : list expr) (form_type : string) :
  group_to_term (seq 0 (2 ^ length variables)) variables form_type = "1".
Proof.
  unfold group_to_term.
  assert (term_parts (seq 0 (2 ^ length variables)) variables form_type = []) as ->.
  { rewrite term_parts_omap.
    rewrite (omap_ext_in _ (λ _, None)); [by induction (seq 0 (length variables))|].
    intros j Hj. apply elem_of_seq in Hj as [_ Hj]. simpl in Hj.
    rewrite term_part_is_Some; [by rewrite constant_bit_full| | |done].
    - pose proof (pow2_pos (length variables)).
      destruct (2 ^ length variables); [lia|done].
    - apply Forall_forall. intros i Hi. apply elem_of_seq in Hi. lia. }
  pose proof (pow2_pos (length variables)).
  by destruct (2 ^ length variables); [lia|].
Qed.

Lemma omap_seq_imap {A B} (f : nat → A → B) (g : nat → option B) (l : list A) :
  (∀ j x, l !! j = Some x → g j = Some (f j x)) →
  omap g (seq 0 (length l)) = imap f l.
Proof.
  revert f g. induction l as [|x l IH]; intros f g Hfg; [done|].
  cbn [length seq imap]. csimpl. rewrite (Hfg 0 x eq_refl). f_equal.
  rewrite <- (IH (f ∘ S) (g ∘ S)).
  - rewrite <- fmap_S_seq. clear. induction (seq 0 (length l)) as [|k ks IH]; [done|].
    csimpl. by rewrite IH.
  - intros j y Hj. by apply (Hfg (S j)).
Qed.

(** Extra X5.  A group of a single index below [2^n] yields one literal
    for every variable, in the order of the variables, primed or plain by
    the bit of the index at that variable; the term is their
    concatenation under SOP and their parenthesised sum under POS. *)
Theorem single_cell_names_every_variable (m : mode) (variables : list expr) (i : nat) :
  i < 2 ^ length variables → variables ≠ [] →
  let parts :=
    imap (λ j x, literal_name m (sstr x) (bit_at (length variables) i j)) variables in
  term_parts [i] variables (mode_tag m) = parts
  ∧ group_to_term [i] variables (mode_tag m)
    = match m with
      | SOP => Py.join "" parts
      | POS => "(" +:+ Py.join " + " parts +:+ ")"
      end.
Proof.
  intros Hi Hne parts.
  assert (term_parts [i] variables (mode_tag m) = parts) as Hparts.
  { rewrite term_parts_omap. apply omap_seq_imap.
    intros j x Hj.
    assert (j < length variables) as Hlt by (by eapply lookup_lt_Some).
    rewrite (term_part_spec m variables [i] j); [|done|by repeat constructor|done].
    unfold constant_bit. simpl. rewrite Bool.eqb_reflx. simpl.
    unfold var_str. by rewrite Hj. }
  split; [done|]. unfold group_to_term. rewrite Hparts.
  subst parts. destruct variables as [|x variables]; [done|]. by destruct m.
Qed.

Lemma single_cell_names_every_variable_witness :
  let variables := symbols ["a"; "b"; "c"; "d"] in
  let parts := imap (λ j x, literal_name SOP (sstr x) (bit_at 4 5 j)) variables in
  term_parts [5] variables (mode_tag SOP) = parts
  ∧ group_to_term [5] variables (mode_tag SOP) = Py.join "" parts.
Proof.
  apply (single_cell_names_every_variable SOP (symbols ["a"; "b"; "c"; "d"]) 5).
  - simpl. lia.
  - discriminate.
Defined.

Example single_cell_5 :
  group_to_term [5] (symbols ["a"; "b"; "c"; "d"]) "SOP" = "a'bc'd".
Proof. by vm_compute. Qed.

(** Extra X6.  With a form type that is neither "SOP" nor "POS", every
    constant position is shown primed, whatever its bit, and the parts
    are joined as a parenthesised sum. *)
Theorem unknown_form_type_primes_everything (variables : list expr) (group : list nat)
    (form_type : string) :
  form_type ≠ "SOP" → form_type ≠ "POS" →
  group ≠ [] → Forall (λ i, i < 2 ^ length variables) group →
  group_to_term group variables form_type
  = match omap (λ j, _ ← constant_bit (length variables) group j;
                     Some (var_str variables j +:+ "'"))
            (seq 0 (length variables)) with
    | [] => "1"
    | parts => "(" +:+ Py.join " + " parts +:+ ")"
    end.
Proof.
  intros Hsop Hpos Hne Hrange. unfold group_to_term.
  apply String.eqb_neq in Hsop, Hpos.
  rewrite term_parts_omap.
  rewrite (omap_ext_in _
             (λ j, _ ← constant_bit (length variables) group j;
                   Some (var_str variables j +:+ "'"))).
  2:{ intros j Hj. apply elem_of_seq in Hj as [_ Hj]. simpl in Hj.
      rewrite term_part_is_Some by done. by rewrite Hsop, Hpos. }
  rewrite Hsop. by destruct group.
Qed.

Lemma unknown_form_type_primes_everything_witness :
  group_to_term [6; 7] (symbols ["a"; "b"; "c"]) "sop"
  = match omap (λ j, _ ← constant_bit 3 [6; 7] j;
                     Some (var_str (symbols ["a"; "b"; "c"]) j +:+ "'"))
            (seq 0 3) with
    | [] => "1"
    | parts => "(" +:+ Py.join " + " parts +:+ ")"
    end.
Proof.
  apply (unknown_form_type_primes_everything (symbols ["a"; "b"; "c"]) [6; 7] "sop").
  - discriminate.
  - discriminate.
  - discriminate.
  - repeat constructor; simpl; lia.
Defined.

Example unknown_form_type_example :
  group_to_term [6; 7] (symbols ["a"; "b"; "c"]) "sop" = "(a' + b')".
Proof. by vm_compute. Qed.

(** ** More on the grid *)

Lemma foldl_ext_in {A B} (f g : A → B → A) (l : list B) (a : A) :
  (∀ a x, x ∈ l → f a x = g a x) → foldl f a l = foldl g a l.
Proof.
  revert a. induction l as [|x l IH]; intros a Hext; [done|]. simpl.
  rewrite (Hext a x) by left. apply IH. intros a' y Hy. apply Hext. by right.
Qed.

Lemma default_all_terms minterms dontcares i :
  default "0" (all_terms_of minterms dontcares !! Z.of_nat i)
  = cell_value minterms dontcares i.
Proof.
  rewrite all_terms_lookup. unfold cell_value.
  by destruct (decide (Z.of_nat i ∈ dontcares)), (decide (Z.of_nat i ∈ minterms)).
Qed.

Lemma generate_kmap_Some variables minterms dontcares output_name k :
  generate_kmap variables minterms dontcares output_name = Some k →
  length variables ∈ [2; 3; 4]
  ∧ k = {| Kmap.map :=
             fill_kmap variables (all_terms_of minterms dontcares)
               (replicate (grid_dims (length variables)).1
                  (replicate (grid_dims (length variables)).2 "0"));
           Kmap.row_labels := axis_labels (take (length variables / 2) variables);
           Kmap.col_labels := axis_labels (drop (length variables / 2) variables);
           Kmap.row_vars := Py.join "," (take (length variables / 2) variables);
           Kmap.col_vars := Py.join "," (drop (length variables / 2) variables);
           Kmap.output_name := output_name |}.
Proof.
  unfold generate_kmap.
  destruct (bool_decide (length variables ∈ [2; 3; 4])) eqn:Hlen; [|done].
  apply bool_decide_eq_true in Hlen. simpl.
  destruct (grid_dims (length variables)) as [rows cols]. by intros [= <-].
Qed.

(** Extra X7.  [generate_kmap] returns [None] exactly for a variable count
    other than 2, 3 or 4.  Otherwise the grid has one row per row label
    and one cell per column label in every row, the two label counts
    multiply to [2^n], and the output name is passed through. *)
Theorem generate_kmap_shape (variables : list string) (minterms dontcares : list Z)
    (output_name : string) :
  match generate_kmap variables minterms dontcares output_name with
  | None => length variables ∉ [2; 3; 4]
  | Some k =>
      length variables ∈ [2; 3; 4]
      ∧ length (Kmap.map k) = length (Kmap.row_labels k)
      ∧ Forall (λ row, length row = length (Kmap.col_labels k)) (Kmap.map k)
      ∧ length (Kmap.row_labels k) * length (Kmap.col_labels k) = 2 ^ length variables
      ∧ Kmap.output_name k = output_name
  end.
Proof.
  destruct (generate_kmap variables minterms dontcares output_name) as [k|] eqn:Hk.
  - destruct (generate_kmap_Some _ _ _ _ _ Hk) as [Hlen _].
    destruct (generate_kmap_cells variables Hlen minterms dontcares output_name)
      as (k' & Hk' & [Hrows Hcols] & _).
    assert (k' = k) as -> by congruence.
    destruct (generate_kmap_Some _ _ _ _ _ Hk) as [_ ->]. simpl in *.
    split; [done|].
    destruct (supported_lengths variables Hlen)
      as [(a & b & ->)|[(a & b & c & ->)|(a & b & c & d & ->)]];
      simpl in *; repeat split; done.
  - unfold generate_kmap in Hk.
    destruct (bool_decide (length variables ∈ [2; 3; 4])) eqn:Hlen.
    + simpl in Hk. by destruct (grid_dims (length variables)).
    + by apply bool_decide_eq_false in Hlen.
Qed.

(** Extra X8.  For 2, 3 or 4 variables the cell of index [i] holds "X" when
    [i] is among the don't-cares, else "1" when it is among the minterms,
    else "0". *)
Theorem generate_kmap_cell_values (variables : list string) (minterms dontcares : list Z)
    (output_name : string) (i : nat) :
  length variables ∈ [2; 3; 4] → i < 2 ^ length variables →
  ∃ k, generate_kmap variables minterms dontcares output_name = Some k
       ∧ grid_cell (Kmap.map k) (cell_of variables i)
         = Some (cell_value minterms dontcares i).
Proof.
  intros Hlen Hi.
  destruct (generate_kmap_cells variables Hlen minterms dontcares output_name)
    as (k & Hk & _ & Hcells).
  exists k. split; [done|]. by rewrite Hcells, default_all_terms.
Qed.

Lemma generate_kmap_cell_values_witness :
  ∃ k, generate_kmap ["a"; "b"; "c"] [3%Z; 6%Z] [7%Z] "f" = Some k
       ∧ grid_cell (Kmap.map k) (cell_of ["a"; "b"; "c"] 6)
         = Some (cell_value [3%Z; 6%Z] [7%Z] 6).
Proof.
  apply (generate_kmap_cell_values ["a"; "b"; "c"] [3%Z; 6%Z] [7%Z] "f" 6).
  - simpl. right. left.
  - simpl. lia.
Defined.

Lemma set_cell_Forall (P : string → Prop) kmap r c val :
  Forall (Forall P) kmap → P val → Forall (Forall P) (set_cell kmap r c val).
Proof.
  intros Hall Hval. unfold set_cell.
  destruct (kmap !! r) as [row|] eqn:Hrow; [|done].
  apply Forall_insert; [done|]. apply Forall_insert; [|done].
  by apply (Forall_lookup_1 _ kmap r row Hall).
Qed.

Lemma fill_kmap_Forall (P : string → Prop) variables all_terms kmap :
  Forall (Forall P) kmap →
  (∀ i, P (default "0" (all_terms !! Z.of_nat i))) →
  Forall (Forall P) (fill_kmap variables all_terms kmap).
Proof.
  intros Hall Hval. unfold fill_kmap.
  revert kmap Hall. induction (Py.range (2 ^ length variables)) as [|i l IH];
    intros kmap Hall; [done|].
  simpl. apply IH. destruct (cell_of variables i) as [r c].
  by apply set_cell_Forall.
Qed.

(** Extra X9.  Every cell of a generated grid is "0", "1" or "X". *)
Theorem generate_kmap_alphabet (variables : list string) (minterms dontcares : list Z)
    (output_name : string) (k : Kmap.t) :
  generate_kmap variables minterms dontcares output_name = Some k →
  Forall (Forall (λ cell, cell ∈ ["0"; "1"; "X"])) (Kmap.map k).
Proof.
  intros Hk. destruct (generate_kmap_Some _ _ _ _ _ Hk) as [_ ->]. simpl.
  apply fill_kmap_Forall.
  - apply Forall_replicate, Forall_replicate. left.
  - intros i. rewrite default_all_terms. unfold cell_value.
    repeat case_decide; [right; right; left|right; left|left].
Qed.

Lemma generate_kmap_alphabet_witness :
  Forall (Forall (λ cell, cell ∈ ["0"; "1"; "X"]))
    [["0"; "0"; "1"; "0"]; ["0"; "0"; "X"; "1"]].
Proof.
  apply (generate_kmap_alphabet ["a"; "b"; "c"] [3%Z; 6%Z] [7%Z] "f"
           {| Kmap.map := [["0"; "0"; "1"; "0"]; ["0"; "0"; "X"; "1"]];
              Kmap.row_labels := ["0"; "1"];
              Kmap.col_labels := ["00"; "01"; "11"; "10"];
              Kmap.row_vars := "a"; Kmap.col_vars := "b,c";
              Kmap.output_name := "f" |}).
  vm_compute. reflexivity.
Defined.

(** Extra X10.  The result of [generate_kmap] depends only on which indices
    below [2^n] occur in the two lists: negative or too large entries,
    repetitions and the order of the entries are without effect. *)
Theorem generate_kmap_membership_only (variables : list string)
    (minterms dontcares minterms' dontcares' : list Z) (output_name : string) :
  (∀ i, i < 2 ^ length variables →
        (Z.of_nat i ∈ minterms ↔ Z.of_nat i ∈ minterms')
        ∧ (Z.of_nat i ∈ dontcares ↔ Z.of_nat i ∈ dontcares')) →
  generate_kmap variables minterms dontcares output_name
  = generate_kmap variables minterms' dontcares' output_name.
Proof.
  intros Hsame. unfold generate_kmap.
  destruct (bool_decide (length variables ∈ [2; 3; 4])); [|done]. simpl.
  destruct (grid_dims (length variables)) as [rows cols].
  do 2 f_equal. unfold fill_kmap, Py.range. apply foldl_ext_in.
  intros kmap i Hi. apply elem_of_seq in Hi as [_ Hi]. simpl in Hi.
  rewrite !default_all_terms. unfold cell_value.
  destruct (Hsame i Hi) as [Hon Hdc].
  destruct (decide (Z.of_nat i ∈ dontcares)), (decide (Z.of_nat i ∈ dontcares'));
    try tauto;
    destruct (decide (Z.of_nat i ∈ minterms)), (decide (Z.of_nat i ∈ minterms'));
    tauto || done.
Qed.

Lemma generate_kmap_membership_only_witness :
  generate_kmap ["a"; "b"] [1; -3; 99; 1]%Z [2]%Z "f"
  = generate_kmap ["a"; "b"] [1]%Z [2; 4]%Z "f".
Proof.
  apply (generate_kmap_membership_only ["a"; "b"] [1; -3; 99; 1]%Z [2]%Z [1]%Z [2; 4]%Z).
  intros i Hi. simpl in Hi.
  rewrite !elem_of_cons, !elem_of_nil. lia.
Defined.

Lemma labels_checked (variables : list string) :
  length variables ∈ [2; 3; 4] → labels_spell_index variables = true.
Proof.
  intros Hlen.
  destruct (supported_lengths variables Hlen)
    as [(a & b & ->)|[(a & b & c & ->)|(a & b & c & d & ->)]];
    vm_compute; reflexivity.
Qed.

(** Extra X11.  In a generated map, the label of the row and the label of
    the column of the cell of index [i], put together, are the binary
    rendering of [i] on [n] digits. *)
Theorem labels_spell_the_index (variables : list string) (minterms dontcares : list Z)
    (output_name : string) (k : Kmap.t) (i : nat) :
  generate_kmap variables minterms dontcares output_name = Some k →
  i < 2 ^ length variables →
  ∃ row_label col_label,
    Kmap.row_labels k !! (cell_of variables i).1 = Some row_label
    ∧ Kmap.col_labels k !! (cell_of variables i).2 = Some col_label
    ∧ row_label +:+ col_label
      = String.string_of_list_ascii (Py.format_bin (length variables) i).
Proof.
  intros Hk Hi. destruct (generate_kmap_Some _ _ _ _ _ Hk) as [Hlen ->].
  cbn [Kmap.row_labels Kmap.col_labels].
  pose proof (labels_checked variables Hlen) as Hcheck.
  unfold labels_spell_index in Hcheck. rewrite forallb_forall in Hcheck.
  specialize (Hcheck i ltac:(apply list_elem_of_In, elem_of_seq; lia)).
  destruct (cell_of variables i) as [r c]. cbn [fst snd].
  destruct (axis_labels (take _ variables) !! r) as [rl|]; [|done].
  destruct (axis_labels (drop _ variables) !! c) as [cl|]; [|done].
  exists rl, cl. split; [done|]. split; [done|]. by apply String.eqb_eq.
Qed.

Lemma labels_spell_the_index_witness :
  ∃ row_label col_label,
    ["0"; "1"] !! (cell_of ["a"; "b"; "c"] 6).1 = Some row_label
    ∧ ["00"; "01"; "11"; "10"] !! (cell_of ["a"; "b"; "c"] 6).2 = Some col_label
    ∧ row_label +:+ col_label = String.string_of_list_ascii (Py.format_bin 3 6).
Proof.
  apply (labels_spell_the_index ["a"; "b"; "c"] [3%Z; 6%Z] [7%Z] "f"
           {| Kmap.map := [["0"; "0"; "1"; "0"]; ["0"; "0"; "X"; "1"]];
              Kmap.row_labels := ["0"; "1"];
              Kmap.col_labels := ["00"; "01"; "11"; "10"];
              Kmap.row_vars := "a"; Kmap.col_vars := "b,c";
              Kmap.output_name := "f" |} 6).
  - vm_compute. reflexivity.
  - simpl. lia.
Defined.

(** ** More on the handler *)

(** The three ways through the handler. *)
Lemma solve_body_short_circuit mz req :
  Request.var_names req = []
  ∨ (Request.minterms req = [] ∧ Request.dontcares req = []) →
  solve_body mz req
  = kmap_data ←
      update_kmap_data
        (generate_kmap
           (match Request.var_names req with
            | [] => ["a"; "b"; "c"; "d"]
            | _ => Request.var_names req
            end) [] [] (Request.output_name req))
        [] [] (Request.form_type req);
    inr (Response.Solution "0" kmap_data).
Proof.
  intros Hcase. unfold solve_body.
  assert (bool_decide (Request.var_names req = [])
          || bool_decide (Request.minterms req = [])
             && bool_decide (Request.dontcares req = []) = true) as ->; [|done].
  destruct Hcase as [H|[H1 H2]].
  - by rewrite (bool_decide_eq_true_2 _ H).
  - rewrite (bool_decide_eq_true_2 _ H1), (bool_decide_eq_true_2 _ H2).
    apply orb_true_r.
Qed.

Lemma not_short_circuit (req : Request.t) :
  Request.var_names req ≠ [] →
  Request.minterms req ≠ [] ∨ Request.dontcares req ≠ [] →
  bool_decide (Request.var_names req = [])
  || bool_decide (Request.minterms req = [])
     && bool_decide (Request.dontcares req = []) = false.
Proof.
  intros Hne Hsets. rewrite (bool_decide_eq_false_2 _ Hne). simpl.
  destruct Hsets as [H|H]; rewrite (bool_decide_eq_false_2 _ H);
    [done|apply andb_false_r].
Qed.

Lemma short_circuit_cases (req : Request.t) :
  (Request.var_names req = []
   ∨ (Request.minterms req = [] ∧ Request.dontcares req = []))
  ∨ (Request.var_names req ≠ []
     ∧ (Request.minterms req ≠ [] ∨ Request.dontcares req ≠ [])).
Proof.
  destruct (Request.var_names req); [by left; left|].
  destruct (Request.minterms req); [|by right; split; [|left]].
  destruct (Request.dontcares req); [by left; right|by right; split; [|right]].
Qed.

(** Extra X13.  A request without variable names is answered with the zero
    function on the 4 by 4 grid of the default variables a, b, c, d,
    whatever its on-set, don't-care set and form type; the minimiser is
    not consulted. *)
Theorem empty_names_default_grid (mz : minimizer) (req : Request.t) :
  Request.var_names req = [] →
  solve_kmap mz req
  = Response.Solution "0"
      {| Response.kmap :=
           {| Kmap.map := replicate 4 (replicate 4 "0");
              Kmap.row_labels := ["00"; "01"; "11"; "10"];
              Kmap.col_labels := ["00"; "01"; "11"; "10"];
              Kmap.row_vars := "a,b"; Kmap.col_vars := "c,d";
              Kmap.output_name := Request.output_name req |};
         Response.groups := []; Response.explanations := [];
         Response.form_type := Request.form_type req |}.
Proof.
  intros Hnames. unfold solve_kmap.
  rewrite solve_body_short_circuit by (by left). rewrite Hnames.
  vm_compute. reflexivity.
Qed.

Lemma empty_names_default_grid_witness :
  solve_kmap (constant_minimizer BooleanTrue)
    {| Request.var_names := []; Request.output_name := "g";
       Request.minterms := [3%Z]; Request.dontcares := [1%Z];
       Request.form_type := "POS" |}
  = Response.Solution "0"
      {| Response.kmap :=
           {| Kmap.map := replicate 4 (replicate 4 "0");
              Kmap.row_labels := ["00"; "01"; "11"; "10"];
              Kmap.col_labels := ["00"; "01"; "11"; "10"];
              Kmap.row_vars := "a,b"; Kmap.col_vars := "c,d";
              Kmap.output_name := "g" |};
         Response.groups := []; Response.explanations := [];
         Response.form_type := "POS" |}.
Proof.
  apply (empty_names_default_grid (constant_minimizer BooleanTrue)
           {| Request.var_names := []; Request.output_name := "g";
              Request.minterms := [3%Z]; Request.dontcares := [1%Z];
              Request.form_type := "POS" |}).
  reflexivity.
Defined.

Lemma generate_kmap_unsupported variables minterms dontcares output_name :
  length variables ∉ [2; 3; 4] →
  generate_kmap variables minterms dontcares output_name = None.
Proof. intros Hlen. unfold generate_kmap. by rewrite bool_decide_eq_false_2. Qed.

(** Extra X14.  A request with a non-empty list of variable names of
    unsupported length and with both sets empty is answered with status
    500: the empty-input branch calls [update] on the [None] that
    [generate_kmap] returned. *)
Theorem unsupported_count_empty_sets_crash (mz : minimizer) (req : Request.t) :
  Request.var_names req ≠ [] →
  length (Request.var_names req) ∉ [2; 3; 4] →
  Request.minterms req = [] → Request.dontcares req = [] →
  solve_kmap mz req
  = Response.Error
      "An unexpected server error occurred: 'NoneType' object has no attribute 'update'"
      500.
Proof.
  intros Hne Hlen Hon Hdc. unfold solve_kmap.
  rewrite solve_body_short_circuit by (by right).
  assert (match Request.var_names req with
          | [] => ["a"; "b"; "c"; "d"]
          | _ => Request.var_names req
          end = Request.var_names req) as -> by (by destruct (Request.var_names req)).
  by rewrite generate_kmap_unsupported.
Qed.

Lemma unsupported_count_empty_sets_crash_witness :
  solve_kmap (constant_minimizer BooleanFalse)
    {| Request.var_names := ["x"]; Request.output_name := "f";
       Request.minterms := []; Request.dontcares := [];
       Request.form_type := "SOP" |}
  = Response.Error
      "An unexpected server error occurred: 'NoneType' object has no attribute 'update'"
      500.
Proof.
  apply (unsupported_count_empty_sets_crash (constant_minimizer BooleanFalse)
           {| Request.var_names := ["x"]; Request.output_name := "f";
              Request.minterms := []; Request.dontcares := [];
              Request.form_type := "SOP" |}).
  - discriminate.
  - simpl. intros Hin.
    repeat (apply elem_of_cons in Hin as [Hin|Hin]; [lia|]).
    by apply elem_of_nil in Hin.
  - reflexivity.
  - reflexivity.
Defined.

(** The main path, once the count is supported and a set is non-empty. *)
Lemma solve_body_main mz req :
  length (Request.var_names req) ∈ [2; 3; 4] →
  Request.minterms req ≠ [] ∨ Request.dontcares req ≠ [] →
  ∃ k, generate_kmap (Request.var_names req) (Request.minterms req)
         (Request.dontcares req) (Request.output_name req) = Some k
       ∧ match minimizer_failure mz req with
         | Some e => solve_body mz req = inl e
         | None =>
             ∃ solution groups explanations,
               solve_body mz req
               = inr (Response.Solution solution
                        {| Response.kmap := k; Response.groups := groups;
                           Response.explanations := explanations;
                           Response.form_type := Request.form_type req |})
               ∧ Forall (λ g, sublist g (seq 0 (2 ^ length (Request.var_names req))))
                   groups
         end.
Proof.
  intros Hlen Hsets.
  destruct (generate_kmap_cells _ Hlen (Request.minterms req) (Request.dontcares req)
              (Request.output_name req)) as (k & Hk & _).
  exists k. split; [done|].
  assert (∀ e, Forall (λ g, sublist g (seq 0 (2 ^ length (Request.var_names req))))
                 (get_implicant_groups (Sympy e) (symbols (Request.var_names req))))
    as Hgroups.
  { intros e. unfold get_implicant_groups.
    destruct (in_True_False (Sympy e)); [constructor|].
    apply Forall_forall. intros g Hg.
    change (map ?f ?l) with (f <$> l) in Hg.
    apply list_elem_of_fmap in Hg as (t & -> & _).
    rewrite <- symbols_length. apply get_minterms_for_term_sublist. }
  unfold minimizer_failure, solve_body.
  rewrite not_short_circuit by (try done; by apply supported_not_nil).
  rewrite (bool_decide_eq_true_2 _ Hlen). cbn [negb].
  destruct (String.eqb (Request.form_type req) "SOP").
  - destruct (SOPform mz _ _ _) as [e|minimized_expr]; [done|].
    cbn -[format_sympy_expr generate_kmap get_implicant_groups explain_groups].
    rewrite Hk. cbn -[format_sympy_expr get_implicant_groups explain_groups].
    eexists _, _, _. split; [reflexivity|]. apply Hgroups.
  - destruct (POSform mz _ _ _) as [e|minimized_expr]; [done|].
    cbn -[format_sympy_expr generate_kmap get_implicant_groups explain_groups maxterms_of].
    destruct (SOPform mz _ _ _) as [e|sop_of_zeros_expr]; [done|].
    cbn -[format_sympy_expr generate_kmap get_implicant_groups explain_groups maxterms_of].
    rewrite Hk.
    cbn -[format_sympy_expr get_implicant_groups explain_groups maxterms_of].
    eexists _, _, _. split; [reflexivity|]. apply Hgroups.
Qed.



(** Extra X15.  The handler answers with status 400 exactly when the list
    of variable names is non-empty, its length is not 2, 3 or 4, and the
    on-set or the don't-care set is non-empty. *)
Theorem status_400_exactly (mz : minimizer) (req : Request.t) :
  (∃ message, solve_kmap mz req = Response.Error message 400)
  ↔ (Request.var_names req ≠ [])
    ∧ (length (Request.var_names req) ∉ [2; 3; 4])
    ∧ (Request.minterms req ≠ [] ∨ Request.dontcares req ≠ []).
Proof.
  split.
  - intros [message Hresp].
    destruct (short_circuit_cases req) as [Hshort|[Hne Hsets]].
    + exfalso. unfold solve_kmap in Hresp.
      rewrite solve_body_short_circuit in Hresp by done.
      by destruct (generate_kmap _ _ _ _).
    + split; [done|]. split; [|done]. intros Hlen.
      destruct (solve_body_main mz req Hlen Hsets) as (k & _ & Hbody).
      unfold solve_kmap in Hresp.
      destruct (minimizer_failure mz req).
      * by rewrite Hbody in Hresp.
      * destruct Hbody as (solution & groups & explanations & Hbody & _).
        by rewrite Hbody in Hresp.
  - intros (Hne & Hlen & Hsets). eexists.
    unfold solve_kmap, solve_body. rewrite not_short_circuit by done.
    by rewrite (bool_decide_eq_false_2 _ Hlen).
Qed.

(** Extra X17.  In every successful response to a request with at least
    one variable name, the grid is the one [generate_kmap] builds from the
    request's own names, on-set, don't-care set and output name, whatever
    the minimiser and the form type, and the form type is echoed. *)
Theorem grid_ignores_minimizer_and_mode (mz : minimizer) (req : Request.t)
    (solution : string) (kd : Response.kmap_data) :
  solve_kmap mz req = Response.Solution solution kd →
  Request.var_names req ≠ [] →
  generate_kmap (Request.var_names req) (Request.minterms req)
    (Request.dontcares req) (Request.output_name req) = Some (Response.kmap kd)
  ∧ Response.form_type kd = Request.form_type req.
Proof.
  intros Hresp Hne. unfold solve_kmap in Hresp.
  destruct (short_circuit_cases req) as [[Hnil|[Hon Hdc]]|[_ Hsets]]; [done| |].
  - rewrite solve_body_short_circuit in Hresp by (by right).
    rewrite Hon, Hdc.
    assert (match Request.var_names req with
            | [] => ["a"; "b"; "c"; "d"]
            | _ => Request.var_names req
            end = Request.var_names req) as Heq
      by (by destruct (Request.var_names req)).
    rewrite Heq in Hresp.
    destruct (generate_kmap _ _ _ _) as [k|]; [|done].
    simpl in Hresp. by injection Hresp as _ <-.
  - destruct (decide (length (Request.var_names req) ∈ [2; 3; 4])) as [Hlen|Hlen].
    + destruct (solve_body_main mz req Hlen Hsets) as (k & Hk & Hbody).
      destruct (minimizer_failure mz req).
      * by rewrite Hbody in Hresp.
      * destruct Hbody as (solution' & groups & explanations & Hbody & _).
        rewrite Hbody in Hresp. by injection Hresp as _ <-.
    + exfalso. unfold solve_body in Hresp.
      rewrite not_short_circuit in Hresp by done.
      by rewrite (bool_decide_eq_false_2 _ Hlen) in Hresp.
Qed.

Lemma length_omap_le {A B} (f : A → option B) (l : list A) :
  length (omap f l) ≤ length l.
Proof.
  induction l as [|x l IH]; [done|]. csimpl. destruct (f x); simpl; lia.
Qed.

(** The groups of a successful response are sublists of [range(2**n)],
    [n] being the number of names. *)
Lemma response_groups_in_range mz req solution kd :
  solve_kmap mz req = Response.Solution solution kd →
  Forall (λ g, sublist g (seq 0 (2 ^ length (Request.var_names req))))
    (Response.groups kd).
Proof.
  intros Hresp. unfold solve_kmap in Hresp.
  destruct (short_circuit_cases req) as [Hshort|[Hne Hsets]].
  - rewrite solve_body_short_circuit in Hresp by done.
    destruct (generate_kmap _ _ _ _); [|done].
    simpl in Hresp. injection Hresp as _ <-. constructor.
  - destruct (decide (length (Request.var_names req) ∈ [2; 3; 4])) as [Hlen|Hlen].
    + destruct (solve_body_main mz req Hlen Hsets) as (k & Hk & Hbody).
      destruct (minimizer_failure mz req); [by rewrite Hbody in Hresp|].
      destruct Hbody as (solution' & groups & explanations & Hbody & Hgroups).
      rewrite Hbody in Hresp. by injection Hresp as _ <-.
    + exfalso. unfold solve_body in Hresp.
      rewrite not_short_circuit in Hresp by done.
      by rewrite (bool_decide_eq_false_2 _ Hlen) in Hresp.
Qed.

(** Extra X18.  In every successful response to a request whose names
    are plain identifiers (for which [symbols] yields one symbol per
    name), there are at most as many explanations as groups, and every
    group is strictly increasing with all its members below [2^n]. *)
Theorem response_groups_well_formed (mz : minimizer) (req : Request.t)
    (solution : string) (kd : Response.kmap_data) :
  Forall plain_name (Request.var_names req) →
  solve_kmap mz req = Response.Solution solution kd →
  length (Response.explanations kd) ≤ length (Response.groups kd)
  ∧ Forall (λ group,
              StronglySorted lt group
              ∧ Forall (λ i, i < 2 ^ length (Request.var_names req)) group)
      (Response.groups kd).
Proof.
  intros _ Hresp. split.
  - apply solve_kmap_Solution in Hresp.
    rewrite (solve_body_explanations _ _ _ _ Hresp). apply length_omap_le.
  - eapply Forall_impl; [by eapply response_groups_in_range|].
    intros g Hg. split.
    + apply (sublist_StronglySorted _ _ _ Hg), StronglySorted_seq.
    + apply Forall_forall. intros i Hi.
      apply (λ H, elem_of_sublist _ _ _ H Hg), elem_of_seq in Hi. lia.
Qed.

Lemma sample_response :
  solve_kmap
    (constant_minimizer (Or [And [Symbol "a"; Symbol "b"];
                             And [Not (Symbol "a"); Not (Symbol "b")]]))
    {| Request.var_names := ["a"; "b"]; Request.output_name := "f";
       Request.minterms := [3%Z]; Request.dontcares := [0%Z];
       Request.form_type := "SOP" |}
  = Response.Solution "(ab) + (a'b')"
      {| Response.kmap :=
           {| Kmap.map := [["X"; "0"]; ["0"; "1"]];
              Kmap.row_labels := ["0"; "1"]; Kmap.col_labels := ["0"; "1"];
              Kmap.row_vars := "a"; Kmap.col_vars := "b";
              Kmap.output_name := "f" |};
         Response.groups := [[3]; [0]];
         Response.explanations :=
           ["A group is formed around the 1s at positions <strong>[3]</strong>. This simplifies to the term <code>ab</code>."];
         Response.form_type := "SOP" |}.
Proof. vm_compute. reflexivity. Qed.

Lemma grid_ignores_minimizer_and_mode_witness :
  generate_kmap ["a"; "b"] [3%Z] [0%Z] "f"
  = Some {| Kmap.map := [["X"; "0"]; ["0"; "1"]];
            Kmap.row_labels := ["0"; "1"]; Kmap.col_labels := ["0"; "1"];
            Kmap.row_vars := "a"; Kmap.col_vars := "b";
            Kmap.output_name := "f" |}
  ∧ "SOP" = "SOP".
Proof.
  apply (grid_ignores_minimizer_and_mode _ _ _ _ sample_response).
  discriminate.
Defined.

Lemma response_groups_well_formed_witness :
  length
    ["A group is formed around the 1s at positions <strong>[3]</strong>. This simplifies to the term <code>ab</code>."]
  ≤ length [[3]; [0]]
  ∧ Forall (λ group, StronglySorted lt group ∧ Forall (λ i, i < 2 ^ 2) group)
      [[3]; [0]].
Proof.
  refine (response_groups_well_formed _ _ _ _ _ sample_response).
  constructor; [by split|]. constructor; [by split|]. constructor.
Defined.

(** ** The explanations of a response *)







(** A run under POS: the group [0] covers only the don't-care and has no
    explanation; the group [2] is explained by its maxterm. *)
Example explanations_under_POS :
  solve_kmap
    {| SOPform := λ _ _ _, inr (Or [And [Not (Symbol "a"); Not (Symbol "b")];
                                    And [Symbol "a"; Not (Symbol "b")]]);
       POSform := λ _ _ _, inr (And [Symbol "a"; Symbol "b"]) |}
    {| Request.var_names := ["a"; "b"]; Request.output_name := "f";
       Request.minterms := [3%Z]; Request.dontcares := [0%Z];
       Request.form_type := "POS" |}
  = Response.Solution "ab"
      {| Response.kmap :=
           {| Kmap.map := [["X"; "0"]; ["0"; "1"]];
              Kmap.row_labels := ["0"; "1"]; Kmap.col_labels := ["0"; "1"];
              Kmap.row_vars := "a"; Kmap.col_vars := "b";
              Kmap.output_name := "f" |};
         Response.groups := [[0]; [2]];
         Response.explanations :=
           ["A group is formed around the 0s at positions <strong>[2]</strong>. This simplifies to the term <code>(a' + b)</code>."];
         Response.form_type := "POS" |}.
Proof. vm_compute. reflexivity. Qed.





(** ** Reading the variable names *)

Lemma lstrip_comma_free s : comma_free s = true → comma_free (Parse.lstrip s) = true.
Proof.
  induction s as [|c s IH]; [done|]. simpl. intros Hs.
  apply andb_true_iff in Hs as [Hc Hs].
  destruct (Parse.is_space c); [by apply IH|]. simpl. by rewrite Hc, Hs.
Qed.

Lemma rstrip_comma_free s : comma_free s = true → comma_free (Parse.rstrip s) = true.
Proof.
  induction s as [|c s IH]; [done|]. simpl. intros Hs.
  apply andb_true_iff in Hs as [Hc Hs]. specialize (IH Hs).
  destruct (Parse.rstrip s) as [|c' r].
  - destruct (Parse.is_space c); [done|]. simpl. by rewrite Hc.
  - simpl in *. by rewrite Hc, IH.
Qed.

Lemma rstrip_idem s : Parse.rstrip (Parse.rstrip s) = Parse.rstrip s.
Proof.
  induction s as [|c s IH]; [done|]. simpl.
  destruct (Parse.rstrip s) as [|c' r] eqn:Hr.
  - destruct (Parse.is_space c) eqn:Hc; [done|]. simpl. by rewrite Hc.
  - cbn [Parse.rstrip]. cbn [Parse.rstrip] in IH.
    destruct (match Parse.rstrip r with
              | EmptyString => if Parse.is_space c' then EmptyString
                               else String c' EmptyString
              | String a s0 => String c' (String a s0)
              end) eqn:Hm; by simplify_eq.
Qed.

(** What is left after [rstrip] still starts with the same character. *)
Lemma rstrip_head c s :
  Parse.is_space c = false → ∃ r, Parse.rstrip (String c s) = String c r.
Proof.
  intros Hc. simpl. destruct (Parse.rstrip s); [rewrite Hc|]; eauto.
Qed.

Lemma lstrip_head s :
  Parse.lstrip s = EmptyString
  ∨ ∃ c r, Parse.lstrip s = String c r ∧ Parse.is_space c = false.
Proof.
  induction s as [|c s IH]; [by left|]. simpl.
  destruct (Parse.is_space c) eqn:Hc; [done|]. right. eauto.
Qed.

Lemma strip_idem s : Parse.strip (Parse.strip s) = Parse.strip s.
Proof.
  unfold Parse.strip.
  destruct (lstrip_head s) as [->|(c & r & -> & Hc)]; [done|].
  destruct (rstrip_head c r Hc) as [r' Hr]. rewrite Hr.
  cbn [Parse.lstrip]. rewrite Hc, <- Hr. apply rstrip_idem.
Qed.

Lemma split_comma_inhabited s : Parse.split_comma s ≠ [].
Proof.
  destruct s as [|c s]; [done|]. simpl.
  destruct (Ascii.eqb c ","); [done|]. by destruct (Parse.split_comma s).
Qed.

Lemma split_comma_comma_free s :
  Forall (λ piece, comma_free piece = true) (Parse.split_comma s).
Proof.
  induction s as [|c s IH]; [by repeat constructor|]. simpl.
  destruct (Ascii.eqb c ",") eqn:Hc; [by constructor|].
  pose proof (split_comma_inhabited s) as Hne.
  destruct (Parse.split_comma s) as [|piece pieces]; [done|].
  apply Forall_cons in IH as [Hp Hps]. constructor; [|done]. simpl. by rewrite Hc.
Qed.

(** Extra X19.  Every variable name the handler reads from the request is
    non-empty, contains no comma and has no white space at either end. *)
Theorem parsed_names_are_clean (variables : option string) :
  Forall clean_name (Parse.var_names variables).
Proof.
  unfold Parse.var_names. apply Forall_forall. intros v Hv.
  apply list_elem_of_omap in Hv as (piece & Hpiece & Hv).
  pose proof (split_comma_comma_free (default "a,b,c,d" variables)) as Hcf.
  rewrite Forall_forall in Hcf. specialize (Hcf _ Hpiece).
  assert (v = Parse.strip piece ∧ v ≠ EmptyString) as [-> Hne].
  { destruct (Parse.strip piece); [done|]. by simplify_eq. }
  split; [done|]. split; [|apply strip_idem].
  by apply rstrip_comma_free, lstrip_comma_free.
Qed.

Lemma split_comma_piece v :
  comma_free v = true → Parse.split_comma v = [v].
Proof.
  induction v as [|c v IH]; [done|]. simpl. intros Hv.
  apply andb_true_iff in Hv as [Hc Hv]. apply negb_true_iff in Hc.
  by rewrite Hc, IH.
Qed.

Lemma split_comma_app v s :
  comma_free v = true →
  Parse.split_comma (v +:+ "," +:+ s) = v :: Parse.split_comma s.
Proof.
  induction v as [|c v IH]; [done|]. simpl. intros Hv.
  apply andb_true_iff in Hv as [Hc Hv]. apply negb_true_iff in Hc.
  rewrite Hc. cbn [String.app] in IH. by rewrite IH.
Qed.

(** Splitting a comma-joined list of comma-free names gives the names. *)
Lemma split_join names :
  Forall (λ v, comma_free v = true) names → names ≠ [] →
  Parse.split_comma (Py.join "," names) = names.
Proof.
  induction 1 as [|v names Hv Hnames IH]; [done|]. intros _.
  destruct names as [|w names].
  - simpl. by apply split_comma_piece.
  - change (Py.join "," (v :: w :: names)) with (v +:+ "," +:+ Py.join "," (w :: names)).
    rewrite split_comma_app by done. by rewrite IH.
Qed.

Lemma omap_clean names :
  Forall clean_name names →
  omap (λ v, match Parse.strip v with
             | EmptyString => None
             | name => Some name
             end) names = names.
Proof.
  induction 1 as [|v names (Hne & _ & Hstrip) _ IH]; [done|]. csimpl.
  rewrite Hstrip, IH. by destruct v.
Qed.

Lemma clean_names_comma_free names :
  Forall clean_name names → Forall (λ v, comma_free v = true) names.
Proof. intros H. eapply Forall_impl; [exact H|]. by intros v (_ & ? & _). Qed.

Lemma var_names_join names :
  Forall clean_name names → Parse.var_names (Some (Py.join "," names)) = names.
Proof.
  intros Hclean. unfold Parse.var_names. simpl.
  destruct names as [|v names]; [done|].
  rewrite split_join by (done || by apply clean_names_comma_free).
  by apply omap_clean.
Qed.

(** Extra X20.  Names that are non-empty, comma-free and without white
    space at their ends are read back unchanged from their
    comma-separated list. *)
Theorem names_round_trip (names : list string) :
  Forall clean_name names →
  Parse.var_names (Some (Py.join "," names)) = names.
Proof. apply var_names_join. Qed.

Lemma clean_name_a : clean_name "a".
Proof. by repeat split. Qed.

Lemma clean_name_b1 : clean_name "b1".
Proof. by repeat split. Qed.

Lemma names_round_trip_witness :
  Parse.var_names (Some (Py.join "," ["a"; "b1"])) = ["a"; "b1"].
Proof.
  apply (names_round_trip ["a"; "b1"]).
  constructor; [exact clean_name_a|]. constructor; [exact clean_name_b1|]. constructor.
Defined.

Example default_names : Parse.var_names None = ["a"; "b"; "c"; "d"].
Proof. by vm_compute. Qed.

Example untidy_names : Parse.var_names (Some " x , ,y1,, z ") = ["x"; "y1"; "z"].
Proof. by vm_compute. Qed.

Lemma string_app_assoc (s1 s2 s3 : string) : (s1 +:+ s2) +:+ s3 = s1 +:+ (s2 +:+ s3).
Proof.
  induction s1 as [|c s1 IH]; [done|].
  change (String c ((s1 +:+ s2) +:+ s3) = String c (s1 +:+ (s2 +:+ s3))).
  by rewrite IH.
Qed.

Lemma join_app (l1 l2 : list string) :
  l1 ≠ [] → l2 ≠ [] →
  Py.join "," (l1 ++ l2) = Py.join "," l1 +:+ "," +:+ Py.join "," l2.
Proof.
  intros Hl1 Hl2. induction l1 as [|v l1 IH]; [done|].
  destruct l1 as [|w l1].
  - destruct l2; [done|]. reflexivity.
  - change (Py.join "," ((v :: w :: l1) ++ l2))
      with (v +:+ "," +:+ Py.join "," ((w :: l1) ++ l2)).
    rewrite IH by done.
    change (Py.join "," (v :: w :: l1)) with (v +:+ "," +:+ Py.join "," (w :: l1)).
    by rewrite !string_app_assoc.
Qed.

(** Extra X21.  For such names, the row-variable and column-variable
    strings of a generated map, put together with a comma, are read back
    as the variable names of the request. *)
Theorem axis_names_round_trip (names : list string) (minterms dontcares : list Z)
    (output_name : string) (k : Kmap.t) :
  Forall clean_name names →
  generate_kmap names minterms dontcares output_name = Some k →
  Parse.var_names (Some (Kmap.row_vars k +:+ "," +:+ Kmap.col_vars k)) = names.
Proof.
  intros Hclean Hk. destruct (generate_kmap_Some _ _ _ _ _ Hk) as [Hlen ->].
  cbn [Kmap.row_vars Kmap.col_vars].
  rewrite <- join_app.
  - rewrite take_drop. by apply var_names_join.
  - destruct (supported_lengths names Hlen)
      as [(a & b & ->)|[(a & b & c & ->)|(a & b & c & d & ->)]]; done.
  - destruct (supported_lengths names Hlen)
      as [(a & b & ->)|[(a & b & c & ->)|(a & b & c & d & ->)]]; done.
Qed.

Lemma axis_names_round_trip_witness :
  Parse.var_names (Some ("a" +:+ "," +:+ "b1,c")) = ["a"; "b1"; "c"].
Proof.
  apply (axis_names_round_trip ["a"; "b1"; "c"] [3%Z] [] "f"
           {| Kmap.map := [["0"; "0"; "1"; "0"]; ["0"; "0"; "0"; "0"]];
              Kmap.row_labels := ["0"; "1"];
              Kmap.col_labels := ["00"; "01"; "11"; "10"];
              Kmap.row_vars := "a"; Kmap.col_vars := "b1,c";
              Kmap.output_name := "f" |}).
  - constructor; [exact clean_name_a|]. constructor; [exact clean_name_b1|].
    constructor; [by repeat split|]. constructor.
  - vm_compute. reflexivity.
Defined.

(** ** String replacement *)

Lemma app_String c s1 s2 : String c s1 +:+ s2 = String c (s1 +:+ s2).
Proof. reflexivity. Qed.

Lemma app_Empty s : EmptyString +:+ s = s.
Proof. reflexivity. Qed.

Lemma app_Empty_r s : s +:+ EmptyString = s.
Proof. induction s as [|c s IH]; [done|]. by rewrite app_String, IH. Qed.

Lemma prefix_app old s : String.prefix old (old +:+ s) = true.
Proof.
  induction old as [|c old IH]; [by destruct s|].
  rewrite app_String. simpl. destruct (ascii_dec c c); [done|congruence].
Qed.

Lemma prefix_head_ne h old c s : c ≠ h → String.prefix (String h old) (String c s) = false.
Proof. intros Hne. simpl. destruct (ascii_dec h c); [congruence|done]. Qed.

(** Dropping the rest of a matched occurrence. *)
Lemma replace_from_skip old new u s :
  Py.replace_from old new (String.length u) (u +:+ s) = Py.replace_from old new 0 s.
Proof. induction u as [|c u IH]; [done|]. rewrite app_String. simpl. exact IH. Qed.

(** One character that is not the first of [old] is copied, whatever
    follows. *)
Lemma replace_from_char h old new c s :
  c ≠ h →
  Py.replace_from (String h old) new 0 (String c s)
  = String c (Py.replace_from (String h old) new 0 s).
Proof. intros Hne. cbn [Py.replace_from]. by rewrite prefix_head_ne. Qed.

(** A stretch without the first character of [old] is copied. *)
Lemma replace_from_copy h old new u s :
  (∀ c, c ∈ String.list_ascii_of_string u → c ≠ h) →
  Py.replace_from (String h old) new 0 (u +:+ s)
  = u +:+ Py.replace_from (String h old) new 0 s.
Proof.
  induction u as [|c u IH]; intros Hu; [done|].
  rewrite !app_String, replace_from_char by (apply Hu; left).
  rewrite IH; [done|]. intros c' Hc'. apply Hu. by right.
Qed.

(** An occurrence is replaced. *)
Lemma replace_from_match h old new s :
  Py.replace_from (String h old) new 0 (String h old +:+ s)
  = new +:+ Py.replace_from (String h old) new 0 s.
Proof.
  pose proof (prefix_app (String h old) s) as Hp.
  rewrite app_String in *. cbn [Py.replace_from]. rewrite Hp. f_equal.
  replace (String.length (String h old) - 1) with (String.length old)
    by (simpl; lia).
  apply replace_from_skip.
Qed.

(** A first character of [old] that does not start an occurrence is
    copied. *)
Lemma replace_from_miss old new c s :
  String.prefix old (String c s) = false →
  Py.replace_from old new 0 (String c s) = String c (Py.replace_from old new 0 s).
Proof. intros Hp. cbn [Py.replace_from]. by rewrite Hp. Qed.

Lemma prefix_chars old s :
  String.prefix old s = true →
  ∀ c, c ∈ String.list_ascii_of_string old → c ∈ String.list_ascii_of_string s.
Proof.
  revert s. induction old as [|a old IH]; intros s Hp c Hc; [by apply elem_of_nil in Hc|].
  destruct s as [|b s]; [done|]. simpl in Hp.
  destruct (ascii_dec a b) as [->|]; [|done]. simpl in *.
  apply elem_of_cons in Hc as [->|Hc]; [left|right]. by apply IH.
Qed.

(** A string that lacks a character of [old] has no occurrence of it. *)
Lemma replace_from_absent old new c s :
  c ∈ String.list_ascii_of_string old → c ∉ String.list_ascii_of_string s →
  Py.replace_from old new 0 s = s.
Proof.
  intros Hold. induction s as [|a s IH]; intros Hs; [done|].
  rewrite replace_from_miss.
  - rewrite IH; [done|]. intros Hc. apply Hs. simpl. by right.
  - destruct (String.prefix old (String a s)) eqn:Hp; [|done].
    destruct (Hs (prefix_chars _ _ Hp c Hold)).
Qed.

Lemma replace_nonempty h old new s :
  Py.replace (String h old) new s = Py.replace_from (String h old) new 0 s.
Proof. reflexivity. Qed.

(** ** The characters of names and separators *)

Lemma ident_chars_elem s c :
  ident_chars s = true → c ∈ String.list_ascii_of_string s → ident_char c = true.
Proof.
  induction s as [|a s IH]; simpl; intros Hs Hc; [by apply elem_of_nil in Hc|].
  apply andb_true_iff in Hs as [Ha Hs].
  apply elem_of_cons in Hc as [->|Hc]; [done|by apply IH].
Qed.

Lemma elem_of_string_app c s1 s2 :
  c ∈ String.list_ascii_of_string (s1 +:+ s2)
  ↔ c ∈ String.list_ascii_of_string s1 ∨ c ∈ String.list_ascii_of_string s2.
Proof.
  induction s1 as [|a s1 IH].
  - rewrite app_Empty. cbn [String.list_ascii_of_string]. rewrite elem_of_nil. tauto.
  - rewrite app_String. cbn [String.list_ascii_of_string].
    rewrite !elem_of_cons, IH. tauto.
Qed.

Lemma flatten_cons f t items : flatten f (t :: items) = f t +:+ flatten f items.
Proof. reflexivity. Qed.

Lemma flatten_app f l1 l2 : flatten f (l1 ++ l2) = flatten f l1 +:+ flatten f l2.
Proof.
  induction l1 as [|t l1 IH]; [done|].
  rewrite <- app_comm_cons, !flatten_cons, IH. by rewrite string_app_assoc.
Qed.

Lemma literals_plain_cons t items :
  literals_plain (t :: items) → literals_plain items.
Proof. intros H v b Hv. apply (H v b). by right. Qed.

Lemma ident_char_not c :
  ident_char c = true →
  c ≠ "~"%char ∧ c ≠ " "%char ∧ c ≠ "&"%char ∧ c ≠ "|"%char ∧ c ≠ "("%char
  ∧ c ≠ ")"%char ∧ c ≠ "'"%char ∧ c ≠ "+"%char.
Proof. intros Hc. repeat split; intros ->; by vm_compute in Hc. Qed.

(** After a connective comes the start of a name, a tilde or an opening
    parenthesis. *)
Lemma after_connective P a o t rest :
  (t = AndSep ∨ t = OrSep) → follows t (head rest) = true →
  literals_plain rest →
  starts_operand (flatten (item_str P a o) rest).
Proof.
  intros Ht Hf Hplain.
  destruct rest as [|[v b| | | |] rest];
    try (destruct Ht as [-> | ->]; simpl in Hf; done).
  - destruct (Hplain v b ltac:(left)) as [Hne Hv].
    destruct v as [|c v]; [done|]. simpl in Hv. apply andb_true_iff in Hv as [Hc _].
    apply ident_char_not in Hc.
    rewrite flatten_cons.
    destruct b; simpl; [destruct (bool_decide _)|]; rewrite ?app_String; simpl;
      try tauto.
    repeat split; discriminate.
Qed.

(** While the connectives are still spelled out, what comes after a
    literal is nothing, a closing parenthesis or a space. *)
Lemma after_literal P v b rest :
  follows (Lit v b) (head rest) = true →
  starts_plain (flatten (item_str P " & " " | ") rest).
Proof. intros Hf. by destruct rest as [|[v' b'| | | |] rest]. Qed.

(** ** One pass of the loop over the names *)

(** A name is not the start of a different name that is no longer and is
    followed by something that cannot continue a name. *)
Lemma prefix_other_name w v R :
  ident_chars w = true → String.length v ≤ String.length w → v ≠ w →
  starts_plain R → String.prefix w (v +:+ R) = false.
Proof.
  revert w. induction v as [|c v IH]; intros w Hw Hlen Hne HR.
  - destruct w as [|a w]; [done|]. rewrite app_Empty.
    destruct R as [|b R]; [done|]. simpl in Hw, HR.
    apply andb_true_iff in Hw as [Ha _].
    apply prefix_head_ne. intros ->. congruence.
  - destruct w as [|a w]; [simpl in Hlen; lia|].
    rewrite app_String. simpl. destruct (ascii_dec a c) as [->|]; [|done].
    simpl in Hw, Hlen. apply andb_true_iff in Hw as [_ Hw].
    apply IH; [done|lia|congruence|done].
Qed.

Lemma name_chars_differ v (h : ascii) :
  ident_chars v = true → ident_char h = false →
  ∀ c, c ∈ String.list_ascii_of_string v → c ≠ h.
Proof.
  intros Hv Hh c Hc ->. pose proof (ident_chars_elem _ _ Hv Hc). congruence.
Qed.

(** Replacing [~w] by [w'] primes the negations of [w] and nothing else,
    provided every negated name still carrying its tilde is no longer than
    [w]. *)
Lemma tilde_step w P items :
  plain_name w → literals_plain items → well_spaced items = true →
  (∀ v, Lit v true ∈ items → v ∉ P → String.length v ≤ String.length w) →
  Py.replace_from (String "~" w) (w +:+ "'") 0 (flatten (item_str P " & " " | ") items)
  = flatten (item_str (w :: P) " & " " | ") items.
Proof.
  intros [_ Hw]. induction items as [|t items IH]; intros Hplain Hws Hlen; [done|].
  cbn [well_spaced] in Hws. apply andb_true_iff in Hws as [Hf Hws].
  specialize (IH (literals_plain_cons _ _ Hplain) Hws).
  rewrite !flatten_cons.
  destruct t as [v [|]| | | |]; cbn [item_str].
  - destruct (Hplain v true ltac:(left)) as [_ Hv].
    destruct (decide (v ∈ P)) as [HP|HP].
    + rewrite !bool_decide_eq_true_2 by (done || by right).
      rewrite !string_app_assoc.
      rewrite replace_from_copy by (by apply name_chars_differ).
      rewrite replace_from_copy by chars_differ.
      rewrite IH; [done|]. intros v' Hv'. apply Hlen. by right.
    + rewrite (bool_decide_eq_false_2 (v ∈ P)) by done.
      destruct (decide (v = w)) as [->|Hvw].
      * rewrite bool_decide_eq_true_2 by (by left).
        change ("~" +:+ w) with (String "~" w).
        rewrite replace_from_match.
        rewrite IH; [done|]. intros v' Hv'. apply Hlen. by right.
      * rewrite bool_decide_eq_false_2.
        2:{ intros [?|?]%elem_of_cons; done. }
        change ("~" +:+ v) with (String "~" v). rewrite !app_String.
        rewrite replace_from_miss.
        2:{ simpl. destruct (ascii_dec "~" "~"); [|done].
            apply prefix_other_name; [done| |done|by eapply after_literal].
            apply Hlen; [by left|done]. }
        rewrite replace_from_copy by (by apply name_chars_differ).
        rewrite IH; [done|]. intros v' Hv'. apply Hlen. by right.
  - destruct (Hplain v false ltac:(left)) as [_ Hv].
    rewrite replace_from_copy by (by apply name_chars_differ).
    rewrite IH; [done|]. intros v' Hv'. apply Hlen. by right.
  - rewrite replace_from_copy by chars_differ.
    rewrite IH; [done|]. intros v' Hv'. apply Hlen. by right.
  - rewrite replace_from_copy by chars_differ.
    rewrite IH; [done|]. intros v' Hv'. apply Hlen. by right.
  - rewrite replace_from_copy by chars_differ.
    rewrite IH; [done|]. intros v' Hv'. apply Hlen. by right.
  - rewrite replace_from_copy by chars_differ.
    rewrite IH; [done|]. intros v' Hv'. apply Hlen. by right.
Qed.

(** ** The order of the passes *)

Lemma insert_by_len_Permutation x l : Py.insert_by_len x l ≡ₚ x :: l.
Proof.
  induction l as [|y l IH]; [done|]. simpl.
  destruct (Nat.ltb _ _); [done|]. rewrite IH. apply Permutation_swap.
Qed.

Lemma insert_by_len_sorted x l :
  StronglySorted longer_first l → StronglySorted longer_first (Py.insert_by_len x l).
Proof.
  induction 1 as [|y l Hl IH Hy]; simpl; [by repeat constructor|].
  destruct (Nat.ltb_spec (String.length y) (String.length x)) as [Hlt|Hge].
  - constructor; [by constructor|]. constructor; [unfold longer_first; lia|].
    eapply Forall_impl; [exact Hy|]. unfold longer_first. intros; simpl in *; lia.
  - constructor; [done|]. rewrite insert_by_len_Permutation.
    by constructor.
Qed.

Lemma sorted_by_len_desc_spec names :
  Py.sorted_by_len_desc names ≡ₚ names
  ∧ StronglySorted longer_first (Py.sorted_by_len_desc names).
Proof.
  unfold Py.sorted_by_len_desc.
  enough (∀ acc, StronglySorted longer_first acc →
            foldl (λ acc x, Py.insert_by_len x acc) acc names ≡ₚ acc ++ names
            ∧ StronglySorted longer_first
                (foldl (λ acc x, Py.insert_by_len x acc) acc names)) as H.
  { apply (H []). constructor. }
  induction names as [|x names IH]; intros acc Hacc; simpl.
  - by rewrite app_nil_r.
  - destruct (IH (Py.insert_by_len x acc) (insert_by_len_sorted x acc Hacc)) as [HP HS].
    split; [|done]. rewrite HP, insert_by_len_Permutation.
    simpl. apply Permutation_middle.
Qed.

(** The string of the items depends on the primed names only through the
    negated literals present. *)
Lemma flatten_primed_ext P Q a o items :
  (∀ v, Lit v true ∈ items → v ∈ P ↔ v ∈ Q) →
  flatten (item_str P a o) items = flatten (item_str Q a o) items.
Proof.
  induction items as [|t items IH]; intros Hext; [done|].
  rewrite !flatten_cons, IH by (intros v Hv; apply Hext; by right).
  f_equal. destruct t as [v [|]| | | |]; try done. simpl.
  apply (bool_decide_ext (v ∈ P) (v ∈ Q)) in Hext as ->; [done|by left].
Qed.

(** The whole loop: every negation ends up primed. *)
Lemma tilde_loop l P Q items :
  Forall plain_name l → StronglySorted longer_first l →
  literals_plain items → well_spaced items = true →
  (∀ v, Lit v true ∈ items → v ∈ P ∨ v ∈ l) →
  (∀ v, Lit v true ∈ items → v ∈ Q) →
  foldl (λ s var, Py.replace ("~" +:+ var) (var +:+ "'") s)
    (flatten (item_str P " & " " | ") items) l
  = flatten (item_str Q " & " " | ") items.
Proof.
  intros Hl Hsorted Hplain Hws. revert P.
  induction Hsorted as [|w l Hsorted IH Hw]; intros P HP HQ; cbn [foldl].
  - apply flatten_primed_ext. intros v Hv. split; [auto|].
    intros _. destruct (HP v Hv) as [?|H]; [done|by apply elem_of_nil in H].
  - apply Forall_cons in Hl as [Hwp Hl].
    change ("~" +:+ w) with (String "~" w). rewrite replace_nonempty.
    rewrite tilde_step; [|done..|].
    + apply IH; [done| |done]. intros v Hv.
      destruct (HP v Hv) as [?|[->|?]%elem_of_cons]; [left; by right|left; by left|by right].
    + intros v Hv HvP. destruct (HP v Hv) as [?|[->|Hin]%elem_of_cons]; [done|done|].
      rewrite Forall_forall in Hw. apply (Hw v Hin).
Qed.

(** ** The connectives *)

(** A connective other than the one replaced is copied. *)
Lemma replace_from_inert (p c : ascii) new R :
  c ≠ " "%char → c ≠ p → (∀ b R', R = String b R' → b ≠ p) →
  Py.replace_from (String " " (String p " ")) new 0 (String " " (String c (String " " R)))
  = String " " (String c (String " "
      (Py.replace_from (String " " (String p " ")) new 0 R))).
Proof.
  intros Hc Hp HR.
  rewrite replace_from_miss.
  2:{ simpl. destruct (ascii_dec " " " "); [|done].
      destruct (ascii_dec p c); [congruence|done]. }
  rewrite replace_from_char by done.
  rewrite replace_from_miss; [done|].
  destruct R as [|b R']; simpl; (destruct (ascii_dec " " " "); [|done]); [done|].
  destruct (ascii_dec p b) as [->|]; [|done]. by destruct (HR b R' eq_refl).
Qed.

Lemma literal_copy P a o v b (h : ascii) old new R :
  plain_name v → ident_char h = false → h ≠ "~"%char → h ≠ "'"%char →
  Py.replace_from (String h old) new 0 (item_str P a o (Lit v b) +:+ R)
  = item_str P a o (Lit v b) +:+ Py.replace_from (String h old) new 0 R.
Proof.
  intros [_ Hv] Hh Ht Hq. destruct b; cbn [item_str]; [destruct (bool_decide _)|].
  - rewrite !string_app_assoc.
    rewrite replace_from_copy by (by apply name_chars_differ).
    change ("'" +:+ R) with (String "'" R).
    rewrite replace_from_char by done. done.
  - change ("~" +:+ v) with (String "~" v). rewrite !app_String.
    rewrite replace_from_char by done.
    by rewrite replace_from_copy by (by apply name_chars_differ).
  - by rewrite replace_from_copy by (by apply name_chars_differ).
Qed.

(** Replacing the text of the conjunctions. *)
Lemma and_step P (c : ascii) new items :
  c ≠ " "%char → c ≠ "&"%char →
  literals_plain items → well_spaced items = true →
  Py.replace_from " & " new 0
    (flatten (item_str P " & " (String " " (String c " "))) items)
  = flatten (item_str P new (String " " (String c " "))) items.
Proof.
  intros Hc1 Hc2. induction items as [|t items IH]; intros Hplain Hws; [done|].
  cbn [well_spaced] in Hws. apply andb_true_iff in Hws as [Hf Hws].
  specialize (IH (literals_plain_cons _ _ Hplain) Hws).
  rewrite !flatten_cons.
  destruct t as [v b| | | |].
  - rewrite literal_copy; [|by apply (Hplain v b); left|done..].
    rewrite IH. f_equal.
  - cbn [item_str]. rewrite replace_from_match. by rewrite IH.
  - cbn [item_str]. rewrite !app_String, app_Empty.
    rewrite replace_from_inert; [by rewrite IH|done..|].
    intros b R' HR.
    pose proof (after_connective P " & " (String " " (String c " ")) OrSep items
                  ltac:(by right) Hf (literals_plain_cons _ _ Hplain)) as Hop.
    rewrite HR in Hop. simpl in Hop. tauto.
  - cbn [item_str]. rewrite replace_from_copy by chars_differ. by rewrite IH.
  - cbn [item_str]. rewrite replace_from_copy by chars_differ. by rewrite IH.
Qed.

(** Replacing the text of the disjunctions, the conjunctions being spelled
    out or already removed. *)
Lemma or_step P (a : string) new items :
  a = " & " ∨ a = EmptyString →
  literals_plain items → well_spaced items = true →
  Py.replace_from " | " new 0 (flatten (item_str P a " | ") items)
  = flatten (item_str P a new) items.
Proof.
  intros Ha. induction items as [|t items IH]; intros Hplain Hws; [done|].
  cbn [well_spaced] in Hws. apply andb_true_iff in Hws as [Hf Hws].
  specialize (IH (literals_plain_cons _ _ Hplain) Hws).
  rewrite !flatten_cons.
  destruct t as [v b| | | |].
  - rewrite literal_copy; [|by apply (Hplain v b); left|done..].
    rewrite IH. f_equal.
  - cbn [item_str]. destruct Ha as [-> | ->].
    + rewrite !app_String, app_Empty.
      rewrite replace_from_inert; [by rewrite IH|done..|].
      intros b R' HR.
      pose proof (after_connective P " & " " | " AndSep items
                    ltac:(by left) Hf (literals_plain_cons _ _ Hplain)) as Hop.
      rewrite HR in Hop. simpl in Hop. tauto.
    + by rewrite !app_Empty.
  - cbn [item_str]. rewrite replace_from_match. by rewrite IH.
  - cbn [item_str]. rewrite replace_from_copy by chars_differ. by rewrite IH.
  - cbn [item_str]. rewrite replace_from_copy by chars_differ. by rewrite IH.
Qed.

(** Once the conjunctions are removed no ampersand is left, so the final
    substitution of the product form finds nothing to replace. *)
Lemma no_ampersand P (c : ascii) items :
  c ≠ "&"%char → literals_plain items →
  "&"%char ∉ String.list_ascii_of_string
               (flatten (item_str P EmptyString (String " " (String c " "))) items).
Proof.
  intros Hc. induction items as [|t items IH]; intros Hplain.
  - apply not_elem_of_nil.
  - rewrite flatten_cons. intros [Hin|Hin]%elem_of_string_app.
    2:{ by apply (IH (literals_plain_cons _ _ Hplain)). }
    destruct t as [v b| | | |]; cbn [item_str] in Hin.
    + destruct (Hplain v b ltac:(left)) as [_ Hv].
      assert ("&"%char ∉ String.list_ascii_of_string v) as Hnv.
      { intros H. by pose proof (ident_chars_elem _ _ Hv H). }
      destruct b; [destruct (bool_decide _)|]; [| |done].
      * apply elem_of_string_app in Hin as [?|Hin]; [done|].
        simpl in Hin. by apply list_elem_of_singleton in Hin.
      * apply elem_of_string_app in Hin as [Hin|?]; [|done].
        simpl in Hin. by apply list_elem_of_singleton in Hin.
    + by apply elem_of_nil in Hin.
    + simpl in Hin. rewrite !elem_of_cons, elem_of_nil in Hin.
      destruct Hin as [?|[?|[?|?]]]; done.
    + simpl in Hin. by apply list_elem_of_singleton in Hin.
    + simpl in Hin. by apply list_elem_of_singleton in Hin.
Qed.

(** ** The items of a printed expression *)

Lemma render_print e : render e = print render_literal render_sep e.
Proof. reflexivity. Qed.

Lemma literal_not_compound names a : literal_over names a → compound a = false.
Proof. by intros (v & _ & [-> | ->]). Qed.

Lemma sstr_compound e :
  compound e = true →
  sstr e = Py.join (sstr_sep e)
             (map (λ a, if compound a then paren (sstr a) else sstr a) (args_of e)).
Proof.
  destruct e as [| | | |args|args]; try done; intros _; cbn [sstr sstr_sep args_of];
    f_equal; apply map_ext; by intros [].
Qed.

Lemma sstr_print names e : two_level names e → sstr e = print sstr sstr_sep e.
Proof.
  intros [Hlit|(Hc & _ & Hparts)].
  { unfold print. by rewrite (literal_not_compound _ _ Hlit). }
  unfold print. rewrite Hc, (sstr_compound e Hc). f_equal.
  apply map_ext_in. intros p Hp%list_elem_of_In.
  rewrite Forall_forall in Hparts. unfold print_part.
  destruct (Hparts p Hp) as [Hlit|(Hcp & _ & Hlits)].
  { by rewrite (literal_not_compound _ _ Hlit). }
  rewrite Hcp, (sstr_compound p Hcp). unfold paren. do 3 f_equal.
  apply map_ext_in. intros a Ha%list_elem_of_In.
  rewrite Forall_forall in Hlits.
  by rewrite (literal_not_compound _ _ (Hlits a Ha)).
Qed.

Lemma flatten_sep_join f sep blocks :
  flatten f (sep_join sep blocks) = Py.join (f sep) (map (flatten f) blocks).
Proof.
  induction blocks as [|b [|b' rest] IH]; [done..|].
  change (sep_join sep (b :: b' :: rest)) with (b ++ sep :: sep_join sep (b' :: rest)).
  rewrite flatten_app, flatten_cons, IH. reflexivity.
Qed.

(** Any printer whose literals and connectives are those of the items
    prints the items. *)
Lemma print_items names (f : item → string) (lit sep : expr → string) e :
  (∀ a, literal_over names a → lit a = flatten f (literal_items a)) →
  (∀ x, compound x = true → sep x = f (sep_item x)) →
  f LParen = "(" → f RParen = ")" →
  two_level names e →
  print lit sep e = flatten f (items_of e).
Proof.
  intros Hlit Hsep HL HR [He|(Hc & _ & Hparts)]; unfold print, items_of.
  { rewrite (literal_not_compound _ _ He). by apply Hlit. }
  rewrite Hc, flatten_sep_join, (Hsep e Hc), map_map. f_equal.
  apply map_ext_in. intros p Hp%list_elem_of_In.
  rewrite Forall_forall in Hparts. unfold print_part, part_items.
  destruct (Hparts p Hp) as [Hp'|(Hcp & _ & Hlits)].
  { rewrite (literal_not_compound _ _ Hp'). by apply Hlit. }
  rewrite Hcp, flatten_cons, flatten_app, flatten_sep_join, HL, (Hsep p Hcp), map_map.
  rewrite flatten_cons, HR. cbn [flatten foldr]. rewrite app_Empty_r.
  do 3 f_equal. apply map_ext_in. intros a Ha%list_elem_of_In.
  rewrite Forall_forall in Hlits. by apply Hlit, Hlits.
Qed.

Lemma sstr_items names e :
  two_level names e → sstr e = flatten (item_str [] " & " " | ") (items_of e).
Proof.
  intros He. rewrite (sstr_print names e He).
  apply (print_items names); try done.
  - intros a (v & _ & [-> | ->]); cbn; by rewrite ?app_Empty_r.
  - by intros [].
Qed.

Lemma render_items names e :
  two_level names e →
  render e = flatten (item_str names EmptyString " + ") (items_of e).
Proof.
  intros He. rewrite render_print.
  apply (print_items names); try done.
  - intros a (v & Hv & [-> | ->]); cbn; [by rewrite app_Empty_r|].
    by rewrite bool_decide_eq_true_2, app_Empty_r.
  - by intros [].
Qed.

(** ** The items are well spaced *)

Lemma well_spaced_app b t rest :
  well_spaced (b ++ [RParen]) = true →
  t = AndSep ∨ t = OrSep ∨ t = RParen →
  well_spaced (t :: rest) = true →
  well_spaced (b ++ t :: rest) = true.
Proof.
  intros Hb Ht Hrest. induction b as [|x b IH]; [done|].
  rewrite <- !app_comm_cons in *. cbn [well_spaced] in *.
  apply andb_true_iff in Hb as [Hx Hb]. apply andb_true_iff. split; [|by apply IH].
  destruct b as [|y b]; [|done]. simpl in *.
  destruct x; try done; destruct Ht as [-> | [-> | ->]]; done.
Qed.

Lemma well_spaced_init b : well_spaced (b ++ [RParen]) = true → well_spaced b = true.
Proof.
  induction b as [|x b IH]; [done|].
  rewrite <- app_comm_cons. cbn [well_spaced].
  intros [Hx Hb]%andb_true_iff. apply andb_true_iff. split; [|by apply IH].
  destruct b as [|y b]; [|done]. by destruct x.
Qed.

Lemma operand_sep_join sep blocks :
  sep = AndSep ∨ sep = OrSep → blocks ≠ [] → Forall operand blocks →
  operand (sep_join sep blocks).
Proof.
  intros Hsep Hne Hblocks. induction Hblocks as [|b blocks Hb Hblocks IH]; [done|].
  destruct blocks as [|b' rest]; [done|]. specialize (IH ltac:(done)).
  change (sep_join sep (b :: b' :: rest)) with (b ++ sep :: sep_join sep (b' :: rest)).
  unfold operand in *. rewrite <- app_assoc, <- app_comm_cons.
  apply (well_spaced_app (AndSep :: b)); [done|tauto|].
  cbn [well_spaced] in IH |- *. apply andb_true_iff in IH as [Hh Hw].
  apply andb_true_iff. split; [|done]. by destruct Hsep as [-> | ->].
Qed.

Lemma operand_literal names a : literal_over names a → operand (literal_items a).
Proof. by intros (v & _ & [-> | ->]). Qed.

Lemma sep_item_connective e : sep_item e = AndSep ∨ sep_item e = OrSep.
Proof. destruct e; auto. Qed.

Lemma map_not_nil {A B} (f : A → B) l : l ≠ [] → map f l ≠ [].
Proof. by destruct l. Qed.

Lemma operand_part names p : part_over names p → operand (part_items p).
Proof.
  intros [Hlit|(Hc & Hne & Hlits)]; unfold part_items.
  { rewrite (literal_not_compound _ _ Hlit). by eapply operand_literal. }
  rewrite Hc.
  assert (operand (sep_join (sep_item p) (map literal_items (args_of p)))) as Hin.
  { apply operand_sep_join; [apply sep_item_connective|by apply map_not_nil|].
    apply Forall_fmap. eapply Forall_impl; [exact Hlits|].
    intros a Ha. by eapply operand_literal. }
  unfold operand in *. cbn [well_spaced] in Hin. apply andb_true_iff in Hin as [_ Hin].
  rewrite <- !app_comm_cons, <- app_assoc. cbn [well_spaced head follows].
  rewrite !andb_true_l. by apply well_spaced_app; [|auto|].
Qed.

Lemma items_well_spaced names e : two_level names e → well_spaced (items_of e) = true.
Proof.
  intros He.
  assert (operand (items_of e)) as Hop.
  { destruct He as [Hlit|(Hc & Hne & Hparts)]; unfold items_of.
    { rewrite (literal_not_compound _ _ Hlit). by eapply operand_literal. }
    rewrite Hc. apply operand_sep_join;
      [apply sep_item_connective|by apply map_not_nil|].
    apply Forall_fmap. eapply Forall_impl; [exact Hparts|].
    intros p Hp. by eapply operand_part. }
  unfold operand in Hop. cbn [well_spaced] in Hop.
  apply andb_true_iff in Hop as [_ Hop]. by apply well_spaced_init.
Qed.

(** ** The literals among the items *)

Lemma elem_of_sep_join t sep blocks :
  t ∈ sep_join sep blocks → t = sep ∨ ∃ b, b ∈ blocks ∧ t ∈ b.
Proof.
  induction blocks as [|b [|b' rest] IH]; intros Ht.
  - by apply elem_of_nil in Ht.
  - right. exists b. split; [by left|done].
  - change (sep_join sep (b :: b' :: rest))
      with (b ++ sep :: sep_join sep (b' :: rest)) in Ht.
    apply elem_of_app in Ht as [Ht|[->|Ht]%elem_of_cons].
    + right. exists b. split; [by left|done].
    + by left.
    + destruct (IH Ht) as [->|(b0 & Hb0 & Ht0)]; [by left|].
      right. exists b0. split; [by right|done].
Qed.

Lemma literal_items_name names a v b :
  literal_over names a → Lit v b ∈ literal_items a → v ∈ names.
Proof.
  intros (w & Hw & [-> | ->]) Hin; simpl in Hin;
    apply list_elem_of_singleton in Hin; congruence.
Qed.

Lemma part_items_name names p v b :
  part_over names p → Lit v b ∈ part_items p → v ∈ names.
Proof.
  intros [Hlit|(Hc & _ & Hlits)]; unfold part_items.
  { rewrite (literal_not_compound _ _ Hlit). by apply literal_items_name. }
  rewrite Hc. intros [?|Hin]%elem_of_cons; [done|].
  apply elem_of_app in Hin as [Hin|Hin].
  2:{ by apply list_elem_of_singleton in Hin. }
  apply elem_of_sep_join in Hin as [Hin|(bl & Hbl & Hin)].
  { by destruct p. }
  apply list_elem_of_fmap in Hbl as (a & -> & Ha).
  rewrite Forall_forall in Hlits. by eapply literal_items_name; [apply Hlits|].
Qed.

Lemma items_names names e v b :
  two_level names e → Lit v b ∈ items_of e → v ∈ names.
Proof.
  intros [Hlit|(Hc & _ & Hparts)]; unfold items_of.
  { rewrite (literal_not_compound _ _ Hlit). by apply literal_items_name. }
  rewrite Hc. intros Hin.
  apply elem_of_sep_join in Hin as [Hin|(bl & Hbl & Hin)].
  { by destruct e. }
  apply list_elem_of_fmap in Hbl as (p & -> & Hp).
  rewrite Forall_forall in Hparts. by eapply part_items_name; [apply Hparts|].
Qed.

(** ** The display of a two-level expression *)

(** Extra X22.  For variable names that are plain identifiers and an
    expression of at most two levels over them (a literal, or a
    conjunction or disjunction of literals and of parenthesised
    conjunctions or disjunctions of literals), the chain of replacements
    of [format_sympy_expr] yields the display read off the structure:
    every negated symbol carries a trailing prime instead of its tilde,
    also when one name is the start of another; conjunction is
    juxtaposition and disjunction is [" + "]; parentheses are kept.  The
    result is the same for every form type: in the product form the
    final substitution finds nothing to replace, so the factors stand
    side by side with no space between them. *)
Theorem format_two_level (var_names : list string) (e : expr) (form_type : string) :
  Forall plain_name var_names → two_level var_names e →
  format_sympy_expr (Sympy e) var_names form_type = render e.
Proof.
  intros Hnames He.
  pose proof (items_well_spaced _ _ He) as Hws.
  assert (literals_plain (items_of e)) as Hplain.
  { intros v b Hv. rewrite Forall_forall in Hnames.
    by eapply Hnames, items_names. }
  destruct (sorted_by_len_desc_spec var_names) as [Hperm Hsorted].
  unfold format_sympy_expr. cbn [str_pyobject].
  rewrite (sstr_items _ _ He).
  rewrite (tilde_loop _ [] var_names); [|by rewrite Hperm|done..| |].
  2:{ intros v Hv. right. rewrite Hperm. by eapply items_names. }
  2:{ intros v Hv. by eapply items_names. }
  rewrite (render_items _ _ He).
  destruct (String.eqb form_type "SOP").
  - change (Py.replace " & " ?n ?s) with (Py.replace_from " & " n 0 s).
    rewrite (and_step _ "|") by done.
    change (Py.replace " | " ?n ?s) with (Py.replace_from " | " n 0 s).
    by rewrite or_step by auto.
  - change (Py.replace " | " ?n ?s) with (Py.replace_from " | " n 0 s).
    rewrite or_step by auto.
    change (Py.replace " & " ?n ?s) with (Py.replace_from " & " n 0 s).
    rewrite (and_step _ "+") by done.
    change (Py.replace ") & (" ?n ?s) with (Py.replace_from ") & (" n 0 s).
    apply (replace_from_absent _ _ "&"%char).
    + simpl. rewrite !elem_of_cons. auto.
    + by apply no_ampersand.
Qed.

Lemma format_two_level_witness :
  let e := And [Or [Symbol "a"; Symbol "ab"]; Or [Not (Symbol "a"); Not (Symbol "ab")]] in
  format_sympy_expr (Sympy e) ["a"; "ab"] "POS" = render e.
Proof.
  apply (format_two_level ["a"; "ab"]).
  - constructor; [by split|]. constructor; [by split|]. constructor.
  - right. split; [reflexivity|]. split; [discriminate|].
    assert (literal_over ["a"; "ab"] (Symbol "a")) as Ha.
    { exists "a". split; [by left|by left]. }
    assert (literal_over ["a"; "ab"] (Symbol "ab")) as Hab.
    { exists "ab". split; [right; by left|by left]. }
    assert (literal_over ["a"; "ab"] (Not (Symbol "a"))) as Hna.
    { exists "a". split; [by left|by right]. }
    assert (literal_over ["a"; "ab"] (Not (Symbol "ab"))) as Hnab.
    { exists "ab". split; [right; by left|by right]. }
    constructor; [|constructor; [|constructor]].
    + right. split; [reflexivity|]. split; [discriminate|].
      constructor; [exact Ha|]. constructor; [exact Hab|]. constructor.
    + right. split; [reflexivity|]. split; [discriminate|].
      constructor; [exact Hna|]. constructor; [exact Hnab|]. constructor.
Defined.

Example format_two_level_example :
  format_sympy_expr
    (Sympy (And [Or [Symbol "a"; Symbol "ab"]; Or [Not (Symbol "a"); Not (Symbol "ab")]]))
    ["a"; "ab"] "POS"
  = "(a + ab)(a' + ab')".
Proof. by vm_compute. Qed.
